(** * Technical indicators (src/technical_indicators.py)

    A shallow embedding of the indicator functions of the module and of the
    part of the pandas API they call ([df[col]], [Series.rolling],
    [Series.ewm], [diff], [clip], element-wise arithmetic, [pd.DataFrame]).

    Numbers.  The source computes on IEEE doubles.  The embedding keeps the
    special values of that arithmetic (not-a-number, the two infinities) and
    replaces the finite doubles by exact rationals: rounding is not modelled,
    and zero carries no sign.  Every statement below is a statement about this
    exact arithmetic. *)

From Stdlib Require Import QArith Qcanon ZArith Lia Lqa List.
From stdpp Require Import base decidable numbers list strings gmap.

Local Open Scope Z_scope.

(** ** Numbers *)

Module Num.

Inductive num : Type :=
| Fin (q : Qc)
| PInf
| NInf
| NaN.

#[global] Instance num_eq_dec : EqDecision num.
Proof. solve_decision. Defined.

Definition of_Z (z : Z) : num := Fin (Qc_of_Z z).

Definition is_nan (x : num) : bool :=
  match x with NaN => true | _ => false end.

Definition neg (x : num) : num :=
  match x with
  | Fin q => Fin (- q)%Qc
  | PInf => NInf
  | NInf => PInf
  | NaN => NaN
  end.

Definition add (x y : num) : num :=
  match x, y with
  | NaN, _ | _, NaN => NaN
  | Fin a, Fin b => Fin (a + b)%Qc
  | PInf, NInf | NInf, PInf => NaN
  | PInf, _ | _, PInf => PInf
  | NInf, _ | _, NInf => NInf
  end.

Definition sub (x y : num) : num := add x (neg y).

(** Sign of a rational: [Lt] negative, [Eq] zero, [Gt] positive. *)
Definition sgn (q : Qc) : comparison := (q ?= 0)%Qc.

Definition inf_of (s : comparison) : num :=
  match s with Gt => PInf | Lt => NInf | Eq => NaN end.

Definition flip (s : comparison) : comparison := CompOpp s.

Definition mul (x y : num) : num :=
  match x, y with
  | NaN, _ | _, NaN => NaN
  | Fin a, Fin b => Fin (a * b)%Qc
  | Fin a, PInf | PInf, Fin a => inf_of (sgn a)
  | Fin a, NInf | NInf, Fin a => inf_of (flip (sgn a))
  | PInf, PInf | NInf, NInf => PInf
  | PInf, NInf | NInf, PInf => NInf
  end.

(** Division by zero does not raise on a Series: a non-zero finite number
    over zero is an infinity of the sign of the numerator, zero over zero is
    not-a-number. *)
Definition div (x y : num) : num :=
  match x, y with
  | NaN, _ | _, NaN => NaN
  | Fin a, Fin b =>
      match sgn b with
      | Eq => inf_of (sgn a)
      | _ => Fin (a / b)%Qc
      end
  | Fin _, PInf | Fin _, NInf => Fin 0%Qc
  | PInf, Fin b => match sgn b with Lt => NInf | _ => PInf end
  | NInf, Fin b => match sgn b with Lt => PInf | _ => NInf end
  | _, _ => NaN
  end.

(** [Series.clip(lower=0)]: not-a-number is left alone. *)
Definition clip_lower0 (x : num) : num :=
  match x with
  | Fin q => match sgn q with Lt => Fin 0%Qc | _ => Fin q end
  | PInf => PInf
  | NInf => Fin 0%Qc
  | NaN => NaN
  end.

(** Order on numbers; nothing is comparable with not-a-number. *)
Definition le (x y : num) : Prop :=
  match x, y with
  | NaN, _ | _, NaN => False
  | NInf, _ | _, PInf => True
  | Fin a, Fin b => (a <= b)%Qc
  | _, _ => False
  end.

End Num.

Export Num.

(** ** Labels, errors and results *)

(** A column label.  Frames read from price data have string labels; a frame
    built from an unnamed series has the integer label 0. *)
Inductive label : Type :=
| LStr (s : string)
| LInt (k : Z).

#[global] Instance label_eq_dec : EqDecision label.
Proof. solve_decision. Defined.

#[global] Instance label_countable : Countable label.
Proof.
  refine (inj_countable'
    (fun l => match l with LStr s => inl s | LInt k => inr k end)
    (fun x => match x with inl s => LStr s | inr k => LInt k end) _).
  intros []; reflexivity.
Defined.

(** The two exceptions the module can raise: [KeyError] from a column lookup
    and [ValueError], raised by pandas on an invalid window or span and by
    the module itself on an unknown smoothing name. *)
Inductive error : Type :=
| KeyError (key : label)
| ValueError (msg : string).

#[global] Instance error_eq_dec : EqDecision error.
Proof. solve_decision. Defined.

Inductive result (A : Type) : Type :=
| Ok (a : A)
| Err (e : error).

Arguments Ok {A} a.
Arguments Err {A} e.

Definition bind {A B : Type} (r : result A) (k : A -> result B) : result B :=
  match r with
  | Ok a => k a
  | Err e => Err e
  end.

Notation "x <- r ;; k" := (bind r (fun x => k))
  (at level 100, r at next level, right associativity).

(** ** Series and frames *)

Record Series : Type := mkSeries {
  s_name : option label;
  s_index : list Z;
  s_values : list num
}.

Record DataFrame : Type := mkDataFrame {
  df_index : list Z;
  df_columns : gmap label (list num)
}.

(** Every column of a frame has one value per index entry. *)
Definition frame_ok (df : DataFrame) : Prop :=
  map_Forall (fun _ vs => length vs = length (df_index df)) (df_columns df).

(** [df[key]] *)
Definition getitem (df : DataFrame) (key : label) : result Series :=
  match df_columns df !! key with
  | Some vs => Ok (mkSeries (Some key) (df_index df) vs)
  | None => Err (KeyError key)
  end.

(** [pd.DataFrame(s)]: one column, labelled by the name of the series, or by
    0 when the series has no name. *)
Definition frame_of_series (s : Series) : DataFrame :=
  mkDataFrame (s_index s)
    {[ default (LInt 0) (s_name s) := s_values s ]}.

(** Name of the result of a binary operation: kept when both operands agree. *)
Definition join_name (a b : option label) : option label :=
  if decide (a = b) then a else None.

(** Element-wise binary operation.  pandas aligns the operands on their
    index first; every pair of operands in this module carries the index of
    one and the same frame, for which alignment is the identity. *)
Definition series_binop (f : num -> num -> num) (a b : Series) : Series :=
  mkSeries (join_name (s_name a) (s_name b)) (s_index a)
    (zip_with f (s_values a) (s_values b)).

Definition series_map (f : num -> num) (a : Series) : Series :=
  mkSeries (s_name a) (s_index a) (f <$> s_values a).

(** [Series.diff()] *)
Definition diff_values (xs : list num) : list num :=
  match xs with
  | [] => []
  | _ :: tl => NaN :: zip_with Num.sub tl xs
  end.

Definition series_diff (a : Series) : Series :=
  mkSeries (s_name a) (s_index a) (diff_values (s_values a)).

(** ** Rolling windows *)

(** Messages of the [ValueError]s of the window constructor (their wording
    varies between pandas releases; the statements below only rely on their
    being [ValueError]s distinct from the one of this module). *)
Definition msg_min_periods_negative : string := "min_periods must be >= 0".
Definition msg_min_periods_window : string := "min_periods must be <= window".
Definition msg_window_negative : string := "window must be an integer 0 or greater".

Record Rolling : Type := mkRolling {
  r_obj : Series;
  r_window : Z;
  r_min_periods : Z
}.

(** [s.rolling(window=w, min_periods=m)]: the constructor validates its
    arguments; a window of length 0 is accepted. *)
Definition rolling (s : Series) (window min_periods : Z) : result Rolling :=
  if min_periods <? 0 then Err (ValueError msg_min_periods_negative)
  else if window <? min_periods then Err (ValueError msg_min_periods_window)
  else if window <? 0 then Err (ValueError msg_window_negative)
  else Ok (mkRolling s window min_periods).

(** Infinite entries count as missing in a window computation. *)
Definition prep_value (x : num) : num :=
  match x with
  | PInf | NInf => NaN
  | _ => x
  end.

Definition prep_values (xs : list num) : list num := prep_value <$> xs.

(** The window ending at position [i]: positions [max 0 (i+1-w) .. i]. *)
Definition window_start (w : Z) (i : nat) : nat :=
  Z.to_nat (Z.max 0 (Z.of_nat i + 1 - w)).

Definition window_at (w : Z) (xs : list num) (i : nat) : list num :=
  take (S i - window_start w i) (drop (window_start w i) xs).

Definition observations (w : list num) : list Qc :=
  omap (fun x => match x with Fin q => Some q | _ => None end) w.

(** One value per position: the aggregate of the window when it holds at
    least [min_periods] observations, not-a-number otherwise. *)
Definition rolling_values (w m : Z) (agg : list num -> num) (xs : list num)
  : list num :=
  (fun i =>
     let win := window_at w (prep_values xs) i in
     if bool_decide (m <= Z.of_nat (length (observations win)))
     then agg win else NaN) <$> seq 0 (length xs).

Definition rolling_agg (r : Rolling) (agg : list num -> num) : Series :=
  mkSeries (s_name (r_obj r)) (s_index (r_obj r))
    (rolling_values (r_window r) (r_min_periods r) agg (s_values (r_obj r))).

Definition Qc_of_nat (n : nat) : Qc := Qc_of_Z (Z.of_nat n).

Definition Qc_sum (qs : list Qc) : Qc := foldr Qcplus 0%Qc qs.

Definition Qc_max (a b : Qc) : Qc := if Qclt_le_dec a b then b else a.
Definition Qc_min (a b : Qc) : Qc := if Qclt_le_dec b a then b else a.

Definition agg_mean (win : list num) : num :=
  match observations win with
  | [] => NaN
  | obs => Fin (Qc_sum obs / Qc_of_nat (length obs))%Qc
  end.

Definition agg_max (win : list num) : num :=
  match observations win with
  | [] => NaN
  | q :: qs => Fin (foldr Qc_max q qs)
  end.

Definition agg_min (win : list num) : num :=
  match observations win with
  | [] => NaN
  | q :: qs => Fin (foldr Qc_min q qs)
  end.

(** [.mean()], [.max()], [.min()] of a rolling object. *)
Definition rolling_mean (r : Rolling) : Series := rolling_agg r agg_mean.
Definition rolling_max (r : Rolling) : Series := rolling_agg r agg_max.
Definition rolling_min (r : Rolling) : Series := rolling_agg r agg_min.

(** [.apply(f)]: [f] receives the window as it is. *)
Definition rolling_apply (r : Rolling) (f : list num -> num) : Series :=
  rolling_agg r f.

(** ** Moving averages *)

(** [df[prices].rolling(window=n, min_periods=n).mean()] *)
Definition simple_moving_average (df : DataFrame) (n : Z) (prices : string)
  : result Series :=
  s <- getitem df (LStr prices) ;;
  r <- rolling s n n ;;
  Ok (rolling_mean r).

(** [Series.cumsum()] and [Series.sum()], both skipping missing values. *)
Fixpoint cumsum_from (acc : num) (xs : list num) : list num :=
  match xs with
  | [] => []
  | x :: tl =>
      if is_nan x then NaN :: cumsum_from acc tl
      else Num.add acc x :: cumsum_from (Num.add acc x) tl
  end.

Definition cumsum (xs : list num) : list num := cumsum_from (of_Z 0) xs.

Definition nansum (xs : list num) : num :=
  foldr (fun x acc => if is_nan x then acc else Num.add x acc) (of_Z 0) xs.

(** [lambda x: x[::-1].cumsum().sum() * 2 / n / (n + 1)] *)
Definition wma_kernel (n : Z) (x : list num) : num :=
  Num.div (Num.div (Num.mul (nansum (cumsum (reverse x))) (of_Z 2)) (of_Z n))
          (of_Z (n + 1)).

(** [df[prices].rolling(window=n, min_periods=n).apply(lambda x: ...)] *)
Definition weighted_moving_average (df : DataFrame) (n : Z) (prices : string)
  : result Series :=
  s <- getitem df (LStr prices) ;;
  r <- rolling s n n ;;
  Ok (rolling_apply r (wma_kernel n)).

(** ** Exponentially weighted windows *)

Definition msg_span : string := "span must satisfy: span >= 1".
Definition msg_comass : string := "comass must satisfy: comass >= 0".

Record EWM : Type := mkEWM {
  e_obj : Series;
  e_com : Qc;
  e_min_periods : Z
}.

(** [s.ewm(span=n, min_periods=m)]: centre of mass [(span - 1) / 2]. *)
Definition ewm_span (s : Series) (span min_periods : Z) : result EWM :=
  if span <? 1 then Err (ValueError msg_span)
  else Ok (mkEWM s ((Qc_of_Z span - 1) / 2)%Qc min_periods).

(** [s.ewm(com=c, min_periods=m)] *)
Definition ewm_com (s : Series) (com min_periods : Z) : result EWM :=
  if com <? 0 then Err (ValueError msg_comass)
  else Ok (mkEWM s (Qc_of_Z com) min_periods).

Record ewm_state : Type := mkState {
  weighted : option Qc;
  old_wt : Qc;
  nobs : nat
}.

Definition observation (x : num) : option Qc :=
  match x with Fin q => Some q | _ => None end.

Definition of_observation (o : option Qc) : num :=
  match o with Some q => Fin q | None => NaN end.

(** One row of the adjusted, not-ignoring-missing recurrence;
    [factor = 1 - alpha], the weight of a new observation is 1. *)
Definition ewm_step (factor : Qc) (st : ewm_state) (cur : option Qc)
  : ewm_state :=
  match weighted st with
  | Some w =>
      let ow := (old_wt st * factor)%Qc in
      match cur with
      | Some c =>
          let w' := if decide (w = c) then w
                    else ((ow * w + 1 * c) / (ow + 1))%Qc in
          mkState (Some w') (ow + 1)%Qc (S (nobs st))
      | None => mkState (Some w) ow (nobs st)
      end
  | None =>
      match cur with
      | Some c => mkState (Some c) (old_wt st) (S (nobs st))
      | None => st
      end
  end.

Definition ewm_out (minp : Z) (st : ewm_state) : num :=
  if bool_decide (minp <= Z.of_nat (nobs st))
  then of_observation (weighted st) else NaN.

Fixpoint ewm_loop (factor : Qc) (minp : Z) (st : ewm_state) (xs : list num)
  : list num :=
  match xs with
  | [] => []
  | x :: tl =>
      let st' := ewm_step factor st (observation x) in
      ewm_out minp st' :: ewm_loop factor minp st' tl
  end.

Definition ewm_init (x : num) : ewm_state :=
  mkState (observation x) 1%Qc (match observation x with Some _ => 1%nat | None => 0%nat end).

Definition ewm_values (com : Qc) (min_periods : Z) (xs : list num)
  : list num :=
  let alpha := (1 / (1 + com))%Qc in
  let factor := (1 - alpha)%Qc in
  let minp := Z.max min_periods 1 in
  match prep_values xs with
  | [] => []
  | x :: tl =>
      ewm_out minp (ewm_init x) :: ewm_loop factor minp (ewm_init x) tl
  end.

(** [.mean()] of an exponentially weighted window. *)
Definition ewm_mean (e : EWM) : Series :=
  mkSeries (s_name (e_obj e)) (s_index (e_obj e))
    (ewm_values (e_com e) (e_min_periods e) (s_values (e_obj e))).

(** [df[prices].ewm(span=n, min_periods=n).mean()] *)
Definition exponential_moving_average (df : DataFrame) (n : Z)
    (prices : string) : result Series :=
  s <- getitem df (LStr prices) ;;
  e <- ewm_span s n n ;;
  Ok (ewm_mean e).

(** ** Relative strength index *)

(** [rsi = 100 - 100 / (1 + rs)] *)
Definition rsi_of_rs (rs : num) : num :=
  Num.sub (of_Z 100) (Num.div (of_Z 100) (Num.add (of_Z 1) rs)).

Definition relative_strength_index (df : DataFrame) (n : Z) (prices : string)
  : result Series :=
  s <- getitem df (LStr prices) ;;
  let deltas := series_diff s in
  let ups := series_map clip_lower0 deltas in
  let downs := series_map clip_lower0 (series_map Num.neg deltas) in
  eu <- ewm_com ups (n - 1) n ;;
  ed <- ewm_com downs (n - 1) n ;;
  let rs := series_binop Num.div (ewm_mean eu) (ewm_mean ed) in
  let rsi := series_map rsi_of_rs rs in
  Ok rsi.

(** ** Stochastic oscillator *)

Definition msg_d_type : string := "Only SMA, WMA and EMA are available.".

Definition stochastic_oscillator (df : DataFrame) (n_k n_d : Z)
    (prices d_type : string) : result (DataFrame * Series) :=
  sh <- getitem df (LStr prices) ;;
  rh <- rolling sh n_k n_k ;;
  let highest_high := rolling_max rh in
  sl <- getitem df (LStr prices) ;;
  rl <- rolling sl n_k n_k ;;
  let lowest_low := rolling_min rl in
  x <- getitem df (LStr prices) ;;
  let stochastic_k :=
    frame_of_series
      (series_map (fun q => Num.mul q (of_Z 100))
         (series_binop Num.div (series_binop Num.sub x lowest_low)
            (series_binop Num.sub highest_high lowest_low))) in
  stochastic_d <-
    (if String.eqb d_type "sma" then
       simple_moving_average stochastic_k n_d "Close"
     else if String.eqb d_type "wma" then
       weighted_moving_average stochastic_k n_d "Close"
     else if String.eqb d_type "ema" then
       exponential_moving_average stochastic_k n_d "Close"
     else Err (ValueError msg_d_type)) ;;
  Ok (stochastic_k, stochastic_d).

(** ** Bollinger bands *)

Section Bollinger.

(** The square root of the floating-point library.  Nothing is assumed
    about it. *)
Variable sqrt : Qc -> Qc.

(** pandas clamps the square root of a negative variance to 0. *)
Definition zsqrt (v : Qc) : Qc :=
  if Qclt_le_dec v 0 then 0%Qc else sqrt v.

(** Sample standard deviation (one degree of freedom removed). *)
Definition agg_std (win : list num) : num :=
  let obs := observations win in
  if bool_decide (length obs <= 1)%nat then NaN
  else
    let mean := (Qc_sum obs / Qc_of_nat (length obs))%Qc in
    let ssq := Qc_sum ((fun q => ((q - mean) * (q - mean))%Qc) <$> obs) in
    Fin (zsqrt (ssq / Qc_of_nat (length obs - 1))%Qc).

Definition rolling_std (r : Rolling) : Series := rolling_agg r agg_std.

Definition bollinger_bands (df : DataFrame) (n : Z) (m : num)
  : result (Series * Series) :=
  h <- getitem df (LStr "High") ;;
  l <- getitem df (LStr "Low") ;;
  c <- getitem df (LStr "Close") ;;
  let typical_price :=
    series_map (fun q => Num.div q (of_Z 3))
      (series_binop Num.add (series_binop Num.add h l) c) in
  r1 <- rolling typical_price n n ;;
  let sma := rolling_mean r1 in
  r2 <- rolling typical_price n n ;;
  let sigma := rolling_std r2 in
  let upper_bollinger_band :=
    series_binop Num.add sma (series_map (Num.mul m) sigma) in
  let lower_bollinger_band :=
    series_binop Num.sub sma (series_map (Num.mul m) sigma) in
  Ok (lower_bollinger_band, upper_bollinger_band).

End Bollinger.

(** ** MACD *)

Definition moving_average_convergence_divergence (df : DataFrame)
    (n_fast n_slow n_signal : Z) : result (Series * Series * Series) :=
  ema_fast <- exponential_moving_average df n_fast "Close" ;;
  ema_slow <- exponential_moving_average df n_slow "Close" ;;
  let macd := series_binop Num.sub ema_fast ema_slow in
  e <- ewm_span macd n_signal n_signal ;;
  let macd_signal := ewm_mean e in
  let macd_difference := series_binop Num.sub macd macd_signal in
  Ok (macd, macd_signal, macd_difference).

(** ** Intermediate values

    The values the functions bind to local names, as functions of the same
    arguments; the statements below refer to them. *)

(** [ups.ewm(com=n-1, min_periods=n).mean()] and its counterpart on [downs]
    (line 34). *)
Definition smoothed_gains (df : DataFrame) (n : Z) (prices : string)
  : result Series :=
  s <- getitem df (LStr prices) ;;
  e <- ewm_com (series_map clip_lower0 (series_diff s)) (n - 1) n ;;
  Ok (ewm_mean e).

Definition smoothed_losses (df : DataFrame) (n : Z) (prices : string)
  : result Series :=
  s <- getitem df (LStr prices) ;;
  e <- ewm_com (series_map clip_lower0 (series_map Num.neg (series_diff s)))
         (n - 1) n ;;
  Ok (ewm_mean e).

(** [rs] (line 34). *)
Definition relative_strength (df : DataFrame) (n : Z) (prices : string)
  : result Series :=
  g <- smoothed_gains df n prices ;;
  l <- smoothed_losses df n prices ;;
  Ok (series_binop Num.div g l).

(** [highest_high], [lowest_low] (lines 44-45) and their difference. *)
Definition highest_high (df : DataFrame) (n_k : Z) (prices : string)
  : result Series :=
  s <- getitem df (LStr prices) ;;
  r <- rolling s n_k n_k ;;
  Ok (rolling_max r).

Definition lowest_low (df : DataFrame) (n_k : Z) (prices : string)
  : result Series :=
  s <- getitem df (LStr prices) ;;
  r <- rolling s n_k n_k ;;
  Ok (rolling_min r).

Definition rolling_range (df : DataFrame) (n_k : Z) (prices : string)
  : result Series :=
  hh <- highest_high df n_k prices ;;
  ll <- lowest_low df n_k prices ;;
  Ok (series_binop Num.sub hh ll).

(** [stochastic_k] (line 47). *)
Definition stochastic_k_frame (df : DataFrame) (n_k : Z) (prices : string)
  : result DataFrame :=
  hh <- highest_high df n_k prices ;;
  ll <- lowest_low df n_k prices ;;
  x <- getitem df (LStr prices) ;;
  Ok (frame_of_series
        (series_map (fun q => Num.mul q (of_Z 100))
           (series_binop Num.div (series_binop Num.sub x ll)
                                 (series_binop Num.sub hh ll)))).

(** [typical_price], [sma] and [sigma] (lines 65-68). *)
Definition typical_price (df : DataFrame) : result Series :=
  h <- getitem df (LStr "High") ;;
  l <- getitem df (LStr "Low") ;;
  c <- getitem df (LStr "Close") ;;
  Ok (series_map (fun q => Num.div q (of_Z 3))
        (series_binop Num.add (series_binop Num.add h l) c)).

Definition bollinger_center (df : DataFrame) (n : Z) : result Series :=
  tp <- typical_price df ;;
  r <- rolling tp n n ;;
  Ok (rolling_mean r).

Definition bollinger_spread (sqrt : Qc -> Qc) (df : DataFrame) (n : Z)
  : result Series :=
  tp <- typical_price df ;;
  r <- rolling tp n n ;;
  Ok (rolling_std sqrt r).

(** ** Example frames *)

Definition prices_of (zs : list Z) : list num := of_Z <$> zs.

Definition frame_of (idx : list Z) (cols : list (string * list Z))
  : DataFrame :=
  mkDataFrame idx
    (list_to_map ((fun c => (LStr (fst c), prices_of (snd c))) <$> cols)).

Definition one_to_ten : DataFrame :=
  frame_of (seqZ 0 10) [("Close"%string, seqZ 1 10)].

(** * Specification *)

(** The observation [k] places before position [i]. *)
Definition recent (qs : list Qc) (i k : nat) : Qc := nth (i - k) qs 0%Qc.

(** Arithmetic mean of the [n] most recent observations ending at [i]. *)
Definition mean_of_recent (qs : list Qc) (n : Z) (i : nat) : Qc :=
  (Qc_sum (recent qs i <$> seq 0 (Z.to_nat n)) / Qc_of_Z n)%Qc.

(** Linear weights on a list given most recent first: the head has weight
    [length l], the last entry weight 1. *)
Fixpoint linear_sum (l : list Qc) : Qc :=
  match l with
  | [] => 0%Qc
  | q :: tl => (Qc_of_nat (S (length tl)) * q + linear_sum tl)%Qc
  end.

(** The linear-weights definition: weight [n - k] on the observation [k]
    places back, normalised by [n (n + 1) / 2]. *)
Definition linear_weights_wma (qs : list Qc) (n : Z) (i : nat) : Qc :=
  (Qc_sum ((fun k => (Qc_of_Z n - Qc_of_nat k) * recent qs i k)%Qc
             <$> seq 0 (Z.to_nat n))
   / (Qc_of_Z n * (Qc_of_Z n + 1) / 2))%Qc.

(** A series is aligned with an index when it carries that very index and
    one value per entry of it. *)
Definition aligned (idx : list Z) (s : Series) : Prop :=
  s_index s = idx /\ length (s_values s) = length idx.

(** The smoothing names the dispatch of lines 49-54 accepts. *)
Definition supported (d_type : string) : Prop :=
  d_type = "sma"%string \/ d_type = "wma"%string \/ d_type = "ema"%string.

(** Errors that come from a column lookup or from pandas' own validation. *)
Definition library_error (e : error) : Prop :=
  match e with
  | KeyError _ => True
  | ValueError msg => msg <> msg_d_type
  end.

(** A series of prices that rises at every step. *)
Definition strictly_increasing (qs : list Qc) : Prop :=
  forall (i : nat) (a b : Qc),
    qs !! i = Some a -> qs !! S i = Some b -> (a < b)%Qc.

(** The state of the exponentially weighted recurrence stays well formed:
    a non-negative accumulated weight, and a running value with the property
    [P] of the observations. *)
Definition state_inv (P : Qc -> Prop) (st : ewm_state) : Prop :=
  (0 <= old_wt st)%Qc /\
  match weighted st with Some w => P w | None => True end.

(** ** More example data *)

(** A square root that is exact on the squares of rationals, for the examples. *)
Definition root_of_square (q : Qc) : Qc :=
  Q2Qc (Z.sqrt (Qnum q) # Pos.sqrt (Qden q)).

Definition high_low_close : DataFrame :=
  frame_of (seqZ 0 3)
    [("High"%string, [2; 3; 4]); ("Low"%string, [0; 1; 2]);
     ("Close"%string, [1; 2; 3])].

Definition open_only : DataFrame :=
  frame_of (seqZ 0 5) [("Open"%string, [3; 1; 4; 1; 5])].

Definition zigzag : DataFrame :=
  frame_of (seqZ 0 5) [("Close"%string, [3; 1; 4; 1; 5])].

(** ** Exponential weights *)

(** The decay [1 - alpha] of a span [n], with [alpha = 2 / (n + 1)]. *)
Definition ema_decay (n : Z) : Qc := (1 - 2 / (Qc_of_Z n + 1))%Qc.

(** The average of all observations up to position [i] with weight
    [f ^ k] on the observation [k] places back. *)
Definition geometric_average (f : Qc) (qs : list Qc) (i : nat) : Qc :=
  (Qc_sum ((fun k => f ^ k * recent qs i k)%Qc <$> seq 0 (S i))
   / Qc_sum ((fun k => f ^ k)%Qc <$> seq 0 (S i)))%Qc.

(** The same two sums over a history given most recent first. *)
Fixpoint horner_num (f : Qc) (h : list Qc) : Qc :=
  match h with
  | [] => 0%Qc
  | x :: tl => (x + f * horner_num f tl)%Qc
  end.

Fixpoint horner_den (f : Qc) (h : list Qc) : Qc :=
  match h with
  | [] => 0%Qc
  | _ :: tl => (1 + f * horner_den f tl)%Qc
  end.

(** The state of the recurrence after the history [h]. *)
Definition hist_inv (f : Qc) (h : list Qc) (st : ewm_state) : Prop :=
  h <> [] /\
  old_wt st = horner_den f h /\
  weighted st = Some (horner_num f h / horner_den f h)%Qc /\
  nobs st = length h.

(** ** Gains and losses *)

(** Price changes from one position to the next. *)
Definition differences (qs : list Qc) : list Qc :=
  match qs with
  | [] => []
  | _ :: tl => zip_with (fun x y => (x + - y)%Qc) tl qs
  end.

(** The part of a change that is a rise, and the part that is a fall. *)
Definition gain (d : Qc) : Qc :=
  match sgn d with Lt => 0%Qc | _ => d end.

Definition loss (d : Qc) : Qc := gain (- d)%Qc.

(** A series of prices that falls at every step. *)
Definition strictly_decreasing (qs : list Qc) : Prop :=
  forall (i : nat) (a b : Qc),
    qs !! i = Some a -> qs !! S i = Some b -> (b < a)%Qc.

Definition ten_to_one : DataFrame :=
  frame_of (seqZ 0 10) [("Close"%string, [10; 9; 8; 7; 6; 5; 4; 3; 2; 1])].

Definition flat_five : DataFrame :=
  frame_of (seqZ 0 5) [("Close"%string, [5; 5; 5; 5; 5])].

(** ** Shape of a series with a warm-up *)

(** Undefined before position [k], finite from there on. *)
Definition warm (k : nat) (l : list num) : Prop :=
  forall i : nat, (i < length l)%nat ->
    ((i < k)%nat -> l !! i = Some NaN) /\
    ((k <= i)%nat -> exists w : Qc, l !! i = Some (Fin w)).


(** * Properties *)

(** ** Lists of rationals *)

Lemma Qc_sum_app (l1 l2 : list Qc) :
  Qc_sum (l1 ++ l2) = (Qc_sum l1 + Qc_sum l2)%Qc.
Proof.
  induction l1 as [|q l1 IH]; simpl.
  - ring.
  - rewrite IH. ring.
Qed.

Lemma Qc_sum_reverse (l : list Qc) : Qc_sum (reverse l) = Qc_sum l.
Proof.
  induction l as [|q l IH]; [reflexivity|].
  rewrite reverse_cons, Qc_sum_app, IH. simpl. ring.
Qed.

Lemma Qc_of_nat_to_nat (n : Z) : 0 <= n -> Qc_of_nat (Z.to_nat n) = Qc_of_Z n.
Proof. intros Hn. unfold Qc_of_nat. now rewrite Z2Nat.id. Qed.

(** The last [n] entries up to position [i], most recent first. *)
Lemma reverse_window (qs : list Qc) (n i : nat) :
  (n <= S i)%nat -> (i < length qs)%nat ->
  reverse (take n (drop (S i - n) qs)) = recent qs i <$> seq 0 n.
Proof.
  intros Hn Hi.
  assert (Hlen : length (take n (drop (S i - n) qs)) = n).
  { rewrite length_take, length_drop. lia. }
  apply list_eq. intros k.
  destruct (decide (k < n)%nat) as [Hk|Hk].
  - rewrite reverse_lookup by lia. rewrite Hlen.
    rewrite lookup_take_lt by lia. rewrite lookup_drop.
    rewrite list_lookup_fmap, lookup_seq_lt by lia. simpl.
    unfold recent. rewrite nth_lookup.
    replace (S i - n + (n - S k))%nat with (i - k)%nat by lia.
    destruct (lookup_lt_is_Some_2 qs (i - k)%nat) as [q Hq]; [lia|].
    now rewrite Hq.
  - rewrite lookup_ge_None_2 by (rewrite length_reverse; lia).
    symmetry. apply lookup_ge_None_2. rewrite length_fmap, length_seq. lia.
Qed.

(** ** Windows over finite data *)

Lemma observations_fin (qs : list Qc) : observations (Fin <$> qs) = qs.
Proof.
  unfold observations. induction qs as [|q qs IH]; [reflexivity|].
  cbn. now f_equal.
Qed.

Lemma prep_values_fin (qs : list Qc) : prep_values (Fin <$> qs) = Fin <$> qs.
Proof.
  unfold prep_values. induction qs as [|q qs IH]; [reflexivity|].
  cbn. now f_equal.
Qed.

Lemma window_at_fin (w : Z) (qs : list Qc) (i : nat) :
  window_at w (Fin <$> qs) i =
  Fin <$> take (S i - window_start w i) (drop (window_start w i) qs).
Proof. unfold window_at. now rewrite fmap_take, fmap_drop. Qed.

Lemma rolling_values_length w m agg xs :
  length (rolling_values w m agg xs) = length xs.
Proof. unfold rolling_values. now rewrite length_fmap, length_seq. Qed.

Lemma rolling_values_lookup w m agg xs (i : nat) :
  (i < length xs)%nat ->
  rolling_values w m agg xs !! i =
  Some (let win := window_at w (prep_values xs) i in
        if bool_decide (m <= Z.of_nat (length (observations win)))
        then agg win else NaN).
Proof.
  intros Hi. unfold rolling_values.
  rewrite list_lookup_fmap, lookup_seq_lt by assumption. reflexivity.
Qed.

(** The window is too short before position [n - 1]. *)
Lemma rolling_fin_short (n : Z) agg (qs : list Qc) (i : nat) :
  (i < length qs)%nat -> Z.of_nat i < n - 1 ->
  rolling_values n n agg (Fin <$> qs) !! i = Some NaN.
Proof.
  intros Hi Hlt.
  rewrite rolling_values_lookup by (rewrite length_fmap; exact Hi).
  cbv zeta. rewrite prep_values_fin, window_at_fin, observations_fin.
  rewrite bool_decide_eq_false_2; [reflexivity|].
  rewrite length_take, length_drop. unfold window_start. lia.
Qed.

(** From position [n - 1] on the window holds the last [n] entries. *)
Lemma rolling_fin_full (n : Z) agg (qs : list Qc) (i : nat) :
  (i < length qs)%nat -> 0 < n -> n - 1 <= Z.of_nat i ->
  rolling_values n n agg (Fin <$> qs) !! i =
  Some (agg (Fin <$> take (Z.to_nat n) (drop (S i - Z.to_nat n) qs))).
Proof.
  intros Hi Hn Hge.
  rewrite rolling_values_lookup by (rewrite length_fmap; exact Hi).
  cbv zeta. rewrite prep_values_fin, window_at_fin, observations_fin.
  assert (Hs : window_start n i = (S i - Z.to_nat n)%nat)
    by (unfold window_start; lia).
  rewrite Hs.
  replace (S i - (S i - Z.to_nat n))%nat with (Z.to_nat n) by lia.
  rewrite bool_decide_eq_true_2; [reflexivity|].
  rewrite length_take, length_drop. lia.
Qed.

Lemma rolling_ok (s : Series) (n : Z) :
  0 <= n -> rolling s n n = Ok (mkRolling s n n).
Proof.
  intros Hn. unfold rolling.
  destruct (Z.ltb_spec n 0); [lia|].
  rewrite Z.ltb_irrefl. reflexivity.
Qed.

Lemma getitem_ok (df : DataFrame) (key : label) (vs : list num) :
  df_columns df !! key = Some vs ->
  getitem df key = Ok (mkSeries (Some key) (df_index df) vs).
Proof. intros H. unfold getitem. now rewrite H. Qed.

(** ** The functions in terms of their intermediate values *)

Lemma relative_strength_index_stages df n prices :
  relative_strength_index df n prices =
  (rs <- relative_strength df n prices ;; Ok (series_map rsi_of_rs rs)).
Proof.
  unfold relative_strength_index, relative_strength, smoothed_gains,
    smoothed_losses.
  destruct (getitem df (LStr prices)) as [s|e]; [|reflexivity]. simpl.
  unfold ewm_com. destruct (n - 1 <? 0); reflexivity.
Qed.

Lemma stochastic_oscillator_stages df n_k n_d prices d_type :
  stochastic_oscillator df n_k n_d prices d_type =
  (stochastic_k <- stochastic_k_frame df n_k prices ;;
   stochastic_d <-
     (if String.eqb d_type "sma" then
        simple_moving_average stochastic_k n_d "Close"
      else if String.eqb d_type "wma" then
        weighted_moving_average stochastic_k n_d "Close"
      else if String.eqb d_type "ema" then
        exponential_moving_average stochastic_k n_d "Close"
      else Err (ValueError msg_d_type)) ;;
   Ok (stochastic_k, stochastic_d)).
Proof.
  unfold stochastic_oscillator, stochastic_k_frame, highest_high, lowest_low.
  destruct (getitem df (LStr prices)) as [s|e]; [|reflexivity]. simpl.
  destruct (rolling s n_k n_k); reflexivity.
Qed.

Lemma bollinger_bands_stages sqrt df n m :
  bollinger_bands sqrt df n m =
  (sma <- bollinger_center df n ;;
   sigma <- bollinger_spread sqrt df n ;;
   Ok (series_binop Num.sub sma (series_map (Num.mul m) sigma),
       series_binop Num.add sma (series_map (Num.mul m) sigma))).
Proof.
  unfold bollinger_bands, bollinger_center, bollinger_spread, typical_price.
  destruct (getitem df (LStr "High")) as [h|e]; [|reflexivity]. simpl.
  destruct (getitem df (LStr "Low")) as [l|e]; [|reflexivity]. simpl.
  destruct (getitem df (LStr "Close")) as [c|e]; [|reflexivity]. simpl.
  destruct (rolling _ n n); reflexivity.
Qed.

(** ** Simple moving average *)

Lemma agg_mean_fin (qs : list Qc) :
  qs <> [] -> agg_mean (Fin <$> qs) = Fin (Qc_sum qs / Qc_of_nat (length qs))%Qc.
Proof.
  intros Hne. unfold agg_mean. rewrite observations_fin.
  destruct qs; [congruence|reflexivity].
Qed.

Lemma sma_values (df : DataFrame) (n : Z) (prices : string) (qs : list Qc) :
  0 < n ->
  df_columns df !! LStr prices = Some (Fin <$> qs) ->
  simple_moving_average df n prices =
  Ok (mkSeries (Some (LStr prices)) (df_index df)
        (rolling_values n n agg_mean (Fin <$> qs))).
Proof.
  intros Hn Hcol. unfold simple_moving_average.
  rewrite (getitem_ok _ _ _ Hcol). simpl.
  rewrite rolling_ok by lia. reflexivity.
Qed.

(** Evaluation of a closed, decidable statement. *)
Ltac by_eval :=
  apply (bool_decide_eq_true_1 _); vm_compute; reflexivity.

(** C1. For a column of finite prices and a positive window [n], the simple
    moving average is undefined before position [n - 1] and is, from there
    on, the arithmetic mean of the [n] most recent observations up to and
    including the position; on the prices 1..10 with [n = 3] it is 2 at
    index 2, 9 at index 9 and undefined at indices 0 and 1. *)
Theorem simple_moving_average_mean :
  (forall (df : DataFrame) (n : Z) (prices : string) (qs : list Qc),
     0 < n ->
     df_columns df !! LStr prices = Some (Fin <$> qs) ->
     exists out : Series,
       simple_moving_average df n prices = Ok out /\
       length (s_values out) = length qs /\
       forall i : nat, (i < length qs)%nat ->
         (Z.of_nat i < n - 1 -> s_values out !! i = Some NaN) /\
         (n - 1 <= Z.of_nat i ->
          s_values out !! i = Some (Fin (mean_of_recent qs n i)))) /\
  (exists out : Series,
     simple_moving_average one_to_ten 3 "Close" = Ok out /\
     s_values out !! 0%nat = Some NaN /\
     s_values out !! 1%nat = Some NaN /\
     s_values out !! 2%nat = Some (of_Z 2) /\
     s_values out !! 9%nat = Some (of_Z 9)).
Proof.
  split.
  - intros df n prices qs Hn Hcol.
    eexists. split; [apply (sma_values _ _ _ _ Hn Hcol)|]. simpl.
    split; [now rewrite rolling_values_length, length_fmap|].
    intros i Hi. split; intros Hpos.
    + now apply rolling_fin_short.
    + rewrite rolling_fin_full by assumption. f_equal.
      assert (Hlen : length (take (Z.to_nat n) (drop (S i - Z.to_nat n) qs))
                     = Z.to_nat n)
        by (rewrite length_take, length_drop; lia).
      rewrite agg_mean_fin.
      * rewrite Hlen, Qc_of_nat_to_nat by lia. unfold mean_of_recent.
        rewrite <- reverse_window by lia. now rewrite Qc_sum_reverse.
      * intros Hnil. rewrite Hnil in Hlen. simpl in Hlen. lia.
  - eexists. split; [reflexivity|]. repeat split; by_eval.
Qed.

Lemma simple_moving_average_mean_witness :
  exists out : Series,
    simple_moving_average one_to_ten 3 "Close" = Ok out /\
    s_values out !! 4%nat =
    Some (Fin (mean_of_recent (Qc_of_Z <$> seqZ 1 10) 3 4)).
Proof.
  destruct (proj1 simple_moving_average_mean one_to_ten 3 "Close"%string
              (Qc_of_Z <$> seqZ 1 10)) as (out & Hout & _ & Hval).
  - lia.
  - vm_compute. reflexivity.
  - exists out. split; [exact Hout|].
    apply (Hval 4%nat); [vm_compute; lia | lia].
Defined.

(** ** Weighted moving average *)

Lemma sgn_nonzero (q : Qc) : q <> 0%Qc -> sgn q <> Eq.
Proof. unfold sgn. intros Hq He. apply Hq. now apply Qceq_alt. Qed.

Lemma div_fin (a b : Qc) :
  b <> 0%Qc -> Num.div (Fin a) (Fin b) = Fin (a / b)%Qc.
Proof.
  intros Hb. simpl. pose proof (sgn_nonzero b Hb).
  destruct (sgn b); [congruence|reflexivity|reflexivity].
Qed.

Lemma Qc_of_Z_nonzero (z : Z) : z <> 0 -> Qc_of_Z z <> 0%Qc.
Proof. intros Hz He. apply Hz. apply Z2Qc_inj. now rewrite Z2Qc_inj_0. Qed.

Lemma Qc_of_Z_nonneg (z : Z) : 0 <= z -> (0 <= Qc_of_Z z)%Qc.
Proof. intros H. apply Z2Qc_inj_le in H. exact H. Qed.

Lemma Qc_of_nat_0 : Qc_of_nat 0 = 0%Qc.
Proof. exact Z2Qc_inj_0. Qed.

Lemma Qc_of_nat_S (m : nat) : Qc_of_nat (S m) = (Qc_of_nat m + 1)%Qc.
Proof.
  unfold Qc_of_nat. rewrite Nat2Z.inj_succ, <- Z.add_1_r, Z2Qc_inj_add.
  now rewrite Z2Qc_inj_1.
Qed.

Lemma cumsum_from_fin (a : Qc) (l : list Qc) :
  nansum (cumsum_from (Fin a) (Fin <$> l)) =
  Fin (Qc_of_nat (length l) * a + linear_sum l)%Qc.
Proof.
  revert a. induction l as [|q l IH]; intros a.
  - cbn. unfold of_Z. rewrite Qc_of_nat_0, Z2Qc_inj_0.
    apply (f_equal Fin). ring.
  - cbn [fmap list_fmap cumsum_from is_nan Num.add nansum foldr].
    change (foldr _ _ ?l) with (nansum l).
    rewrite IH. cbn [Num.add linear_sum length]. f_equal.
    rewrite !Qc_of_nat_S. ring.
Qed.

Lemma linear_sum_seq (f : nat -> Qc) (a m : nat) :
  linear_sum (f <$> seq a m) =
  Qc_sum ((fun k => (Qc_of_nat m + Qc_of_nat a - Qc_of_nat k) * f k)%Qc
            <$> seq a m).
Proof.
  revert a. induction m as [|m IH]; intros a; [reflexivity|].
  cbn [seq fmap list_fmap linear_sum Qc_sum foldr].
  change (foldr Qcplus 0%Qc ?l) with (Qc_sum l).
  rewrite IH, length_fmap, length_seq. f_equal.
  - rewrite Qc_of_nat_S. ring.
  - f_equal. apply list_fmap_ext. intros _ k _.
    rewrite !Qc_of_nat_S. ring.
Qed.

Lemma wma_kernel_fin (n : Z) (w : list Qc) :
  0 < n -> length w = Z.to_nat n ->
  wma_kernel n (Fin <$> w) =
  Fin (linear_sum (reverse w) / (Qc_of_Z n * (Qc_of_Z n + 1) / 2))%Qc.
Proof.
  intros Hn Hlen. unfold wma_kernel, cumsum, of_Z.
  rewrite <- fmap_reverse, cumsum_from_fin.
  cbn [Num.mul].
  assert (Hn0 : Qc_of_Z n <> 0%Qc) by (apply Qc_of_Z_nonzero; lia).
  assert (Hn1 : Qc_of_Z (n + 1) <> 0%Qc) by (apply Qc_of_Z_nonzero; lia).
  rewrite !div_fin by assumption. f_equal.
  rewrite Z2Qc_inj_add, Z2Qc_inj_1 in *. rewrite Z2Qc_inj_0, Z2Qc_inj_2.
  field. repeat split; try assumption. discriminate.
Qed.

(** C2. On a column of finite prices, at every position with a full window
    of [n] observations, the value computed by the reversed cumulative sum
    equals the linear-weights average, with weight [n] on the most recent
    observation down to weight 1 on the oldest. *)
Theorem weighted_moving_average_linear_weights
    (df : DataFrame) (n : Z) (prices : string) (qs : list Qc) :
  0 < n ->
  df_columns df !! LStr prices = Some (Fin <$> qs) ->
  exists out : Series,
    weighted_moving_average df n prices = Ok out /\
    forall i : nat, (i < length qs)%nat -> n - 1 <= Z.of_nat i ->
      s_values out !! i = Some (Fin (linear_weights_wma qs n i)).
Proof.
  intros Hn Hcol. unfold weighted_moving_average.
  rewrite (getitem_ok _ _ _ Hcol). simpl. rewrite rolling_ok by lia. simpl.
  eexists. split; [reflexivity|]. simpl. intros i Hi Hge.
  rewrite rolling_fin_full by assumption. f_equal.
  rewrite wma_kernel_fin;
    [|assumption|rewrite length_take, length_drop; lia].
  f_equal. unfold linear_weights_wma. f_equal.
  rewrite reverse_window by lia. rewrite linear_sum_seq.
  apply (f_equal Qc_sum). apply list_fmap_ext. intros _ k _.
  rewrite Qc_of_nat_to_nat by lia.
  rewrite Qc_of_nat_0. ring.
Qed.

Lemma weighted_moving_average_linear_weights_witness :
  exists out : Series,
    weighted_moving_average one_to_ten 3 "Close" = Ok out /\
    s_values out !! 2%nat =
    Some (Fin (linear_weights_wma (Qc_of_Z <$> seqZ 1 10) 3 2)).
Proof.
  destruct (weighted_moving_average_linear_weights one_to_ten 3
              "Close"%string (Qc_of_Z <$> seqZ 1 10)) as (out & Hout & Hval).
  - lia.
  - vm_compute. reflexivity.
  - exists out. split; [exact Hout|].
    apply (Hval 2%nat); [vm_compute; lia | lia].
Defined.

(** ** Alignment of the outputs with the input frame *)

Lemma getitem_aligned (df : DataFrame) (key : label) (s : Series) :
  frame_ok df -> getitem df key = Ok s -> aligned (df_index df) s.
Proof.
  intros Hok. unfold getitem.
  destruct (df_columns df !! key) as [vs|] eqn:Hcol; [|discriminate].
  intros [= <-]. split; [reflexivity|]. exact (Hok _ _ Hcol).
Qed.

Lemma rolling_inv (s : Series) (w m : Z) (r : Rolling) :
  rolling s w m = Ok r -> r = mkRolling s w m.
Proof.
  unfold rolling. repeat case_match; try discriminate. now intros [= <-].
Qed.

Lemma rolling_agg_aligned idx (r : Rolling) agg :
  aligned idx (r_obj r) -> aligned idx (rolling_agg r agg).
Proof.
  intros [Hidx Hlen]. split; simpl; [exact Hidx|].
  now rewrite rolling_values_length.
Qed.

Lemma ewm_loop_length factor minp st xs :
  length (ewm_loop factor minp st xs) = length xs.
Proof.
  revert st. induction xs as [|x xs IH]; intros st; simpl; [reflexivity|].
  now rewrite IH.
Qed.

Lemma ewm_values_length com m xs : length (ewm_values com m xs) = length xs.
Proof.
  unfold ewm_values, prep_values. destruct xs as [|x xs]; [reflexivity|].
  cbn. now rewrite ewm_loop_length, length_fmap.
Qed.

Lemma ewm_span_inv (s : Series) (span m : Z) (e : EWM) :
  ewm_span s span m = Ok e ->
  1 <= span /\ e = mkEWM s ((Qc_of_Z span - 1) / 2)%Qc m.
Proof.
  unfold ewm_span. destruct (Z.ltb_spec span 1); [discriminate|].
  intros [= <-]. split; [lia|reflexivity].
Qed.

Lemma ewm_com_inv (s : Series) (com m : Z) (e : EWM) :
  ewm_com s com m = Ok e -> 0 <= com /\ e = mkEWM s (Qc_of_Z com) m.
Proof.
  unfold ewm_com. destruct (Z.ltb_spec com 0); [discriminate|].
  intros [= <-]. split; [lia|reflexivity].
Qed.

Lemma ewm_mean_aligned idx (e : EWM) :
  aligned idx (e_obj e) -> aligned idx (ewm_mean e).
Proof.
  intros [Hidx Hlen]. split; simpl; [exact Hidx|].
  now rewrite ewm_values_length.
Qed.

Lemma series_map_aligned idx f (s : Series) :
  aligned idx s -> aligned idx (series_map f s).
Proof.
  intros [Hidx Hlen]. split; simpl; [exact Hidx|]. now rewrite length_fmap.
Qed.

Lemma series_binop_aligned idx f (a b : Series) :
  aligned idx a -> aligned idx b -> aligned idx (series_binop f a b).
Proof.
  intros [Hia Hla] [Hib Hlb]. split; simpl; [exact Hia|].
  rewrite length_zip_with. lia.
Qed.

Lemma diff_values_length xs : length (diff_values xs) = length xs.
Proof.
  destruct xs as [|x xs]; [reflexivity|]. simpl.
  rewrite length_zip_with. simpl. lia.
Qed.

Lemma series_diff_aligned idx (s : Series) :
  aligned idx s -> aligned idx (series_diff s).
Proof.
  intros [Hidx Hlen]. split; simpl; [exact Hidx|].
  now rewrite diff_values_length.
Qed.

Lemma frame_of_series_ok idx (s : Series) :
  aligned idx s ->
  df_index (frame_of_series s) = idx /\ frame_ok (frame_of_series s).
Proof.
  intros [Hidx Hlen]. split; [exact Hidx|].
  unfold frame_ok, frame_of_series. simpl.
  apply map_Forall_singleton. congruence.
Qed.

(** Inversion of a successful [bind]. *)
Lemma bind_ok {A B : Type} (r : result A) (k : A -> result B) (b : B) :
  bind r k = Ok b -> exists a, r = Ok a /\ k a = Ok b.
Proof. destruct r as [a|e]; [eauto|discriminate]. Qed.

(** Inversion of a successful run of calls. *)
Ltac inv_calls :=
  repeat first
    [ match goal with
      | H : bind _ _ = Ok _ |- _ =>
          apply bind_ok in H; destruct H as (? & ? & H)
      | H : rolling _ _ _ = Ok _ |- _ => apply rolling_inv in H
      | H : ewm_span _ _ _ = Ok _ |- _ => apply ewm_span_inv in H as [? ?]
      | H : ewm_com _ _ _ = Ok _ |- _ => apply ewm_com_inv in H as [? ?]
      end
    | progress simplify_eq ].

Ltac solve_aligned :=
  unfold rolling_mean, rolling_max, rolling_min, rolling_apply;
  repeat first
    [ assumption
    | apply rolling_agg_aligned; simpl
    | apply ewm_mean_aligned; simpl
    | apply series_map_aligned
    | apply series_binop_aligned
    | apply series_diff_aligned
    | eapply getitem_aligned; [eassumption|eassumption] ].

Lemma sma_aligned df n prices out :
  frame_ok df -> simple_moving_average df n prices = Ok out ->
  aligned (df_index df) out.
Proof.
  intros Hok H. unfold simple_moving_average in H. inv_calls. solve_aligned.
Qed.

Lemma wma_aligned df n prices out :
  frame_ok df -> weighted_moving_average df n prices = Ok out ->
  aligned (df_index df) out.
Proof.
  intros Hok H. unfold weighted_moving_average in H. inv_calls. solve_aligned.
Qed.

Lemma ema_aligned df n prices out :
  frame_ok df -> exponential_moving_average df n prices = Ok out ->
  aligned (df_index df) out.
Proof.
  intros Hok H. unfold exponential_moving_average in H. inv_calls.
  solve_aligned.
Qed.

Lemma rsi_aligned df n prices out :
  frame_ok df -> relative_strength_index df n prices = Ok out ->
  aligned (df_index df) out.
Proof.
  intros Hok H.
  unfold relative_strength_index in H. inv_calls. solve_aligned.
Qed.

Lemma stochastic_k_frame_ok df n_k prices k :
  frame_ok df -> stochastic_k_frame df n_k prices = Ok k ->
  df_index k = df_index df /\ frame_ok k.
Proof.
  intros Hok H. unfold stochastic_k_frame, highest_high, lowest_low in H.
  inv_calls. apply frame_of_series_ok. solve_aligned.
Qed.

Lemma stochastic_aligned df n_k n_d prices d_type k d :
  frame_ok df ->
  stochastic_oscillator df n_k n_d prices d_type = Ok (k, d) ->
  df_index k = df_index df /\ frame_ok k /\ aligned (df_index df) d.
Proof.
  intros Hok H. rewrite stochastic_oscillator_stages in H.
  apply bind_ok in H as (k' & Hk & H). apply bind_ok in H as (d' & Hd & H).
  simplify_eq.
  destruct (stochastic_k_frame_ok _ _ _ _ Hok Hk) as [Hidx Hkok].
  split; [exact Hidx|]. split; [exact Hkok|].
  rewrite <- Hidx.
  repeat case_match; try discriminate;
    eauto using sma_aligned, wma_aligned, ema_aligned.
Qed.

Lemma typical_price_aligned df tp :
  frame_ok df -> typical_price df = Ok tp -> aligned (df_index df) tp.
Proof.
  intros Hok H. unfold typical_price in H. inv_calls. solve_aligned.
Qed.

Lemma bollinger_aligned sqrt df n m lower upper :
  frame_ok df -> bollinger_bands sqrt df n m = Ok (lower, upper) ->
  aligned (df_index df) lower /\ aligned (df_index df) upper.
Proof.
  intros Hok H.
  rewrite bollinger_bands_stages in H.
  unfold bollinger_center, bollinger_spread in H. inv_calls.
  repeat match goal with
  | H : typical_price _ = Ok _ |- _ =>
      apply (typical_price_aligned _ _ Hok) in H
  end.
  unfold rolling_std. split; solve_aligned.
Qed.

Lemma macd_aligned df n_fast n_slow n_signal macd sig dif :
  frame_ok df ->
  moving_average_convergence_divergence df n_fast n_slow n_signal
    = Ok (macd, sig, dif) ->
  aligned (df_index df) macd /\ aligned (df_index df) sig /\
  aligned (df_index df) dif.
Proof.
  intros Hok H. unfold moving_average_convergence_divergence in H.
  apply bind_ok in H as (f & Hf & H). apply bind_ok in H as (sl & Hs & H).
  apply (ema_aligned _ _ _ _ Hok) in Hf, Hs.
  inv_calls. repeat split; solve_aligned.
Qed.

(** C3. Every series returned by an indicator carries the index of the
    input frame, in the same order, and has exactly one value per index
    entry: SMA, WMA, EMA, RSI, %K and %D of the stochastic oscillator, both
    Bollinger bands and the three outputs of MACD. *)
Theorem outputs_aligned_with_input (df : DataFrame) :
  frame_ok df ->
  (forall n prices out,
      simple_moving_average df n prices = Ok out ->
      aligned (df_index df) out) /\
  (forall n prices out,
      weighted_moving_average df n prices = Ok out ->
      aligned (df_index df) out) /\
  (forall n prices out,
      exponential_moving_average df n prices = Ok out ->
      aligned (df_index df) out) /\
  (forall n prices out,
      relative_strength_index df n prices = Ok out ->
      aligned (df_index df) out) /\
  (forall n_k n_d prices d_type k d,
      stochastic_oscillator df n_k n_d prices d_type = Ok (k, d) ->
      df_index k = df_index df /\ frame_ok k /\ aligned (df_index df) d) /\
  (forall sqrt n m lower upper,
      bollinger_bands sqrt df n m = Ok (lower, upper) ->
      aligned (df_index df) lower /\ aligned (df_index df) upper) /\
  (forall n_fast n_slow n_signal macd sig dif,
      moving_average_convergence_divergence df n_fast n_slow n_signal
        = Ok (macd, sig, dif) ->
      aligned (df_index df) macd /\ aligned (df_index df) sig /\
      aligned (df_index df) dif).
Proof.
  intros Hok.
  split; [intros; eapply sma_aligned; eassumption|].
  split; [intros; eapply wma_aligned; eassumption|].
  split; [intros; eapply ema_aligned; eassumption|].
  split; [intros; eapply rsi_aligned; eassumption|].
  split; [intros; eapply stochastic_aligned; eassumption|].
  split; [intros; eapply bollinger_aligned; eassumption|].
  intros; eapply macd_aligned; eassumption.
Qed.

Lemma outputs_aligned_with_input_witness :
  exists out : Series,
    exponential_moving_average one_to_ten 3 "Close" = Ok out /\
    aligned (df_index one_to_ten) out.
Proof.
  destruct (outputs_aligned_with_input one_to_ten) as (_ & _ & Hema & _).
  - by_eval.
  - eexists. split; [reflexivity|].
    apply (Hema 3 "Close"%string). reflexivity.
Defined.

(** ** MACD *)

Lemma ewm_span_ok (s : Series) (span m : Z) :
  1 <= span -> ewm_span s span m = Ok (mkEWM s ((Qc_of_Z span - 1) / 2)%Qc m).
Proof. intros H. unfold ewm_span. destruct (Z.ltb_spec span 1); [lia|easy]. Qed.

Lemma ema_ok (df : DataFrame) (n : Z) (prices : string) (xs : list num) :
  df_columns df !! LStr prices = Some xs -> 1 <= n ->
  exponential_moving_average df n prices =
  Ok (ewm_mean (mkEWM (mkSeries (Some (LStr prices)) (df_index df) xs)
                      ((Qc_of_Z n - 1) / 2)%Qc n)).
Proof.
  intros Hcol Hn. unfold exponential_moving_average.
  rewrite (getitem_ok _ _ _ Hcol). simpl. now rewrite ewm_span_ok.
Qed.

Lemma zip_with_lookup_both (f : num -> num -> num) (l k : list num) (i : nat)
    (x y : num) :
  l !! i = Some x -> k !! i = Some y -> zip_with f l k !! i = Some (f x y).
Proof. intros Hx Hy. rewrite lookup_zip_with, Hx. simpl. now rewrite Hy. Qed.

(** C4. With the 'Close' column present and spans of at least 1, MACD
    returns the triple (macd, macd_signal, macd_difference) in that order;
    macd is the fast EMA minus the slow EMA position by position,
    macd_signal is the exponentially weighted mean of macd over n_signal,
    and at every position macd_difference is macd minus macd_signal. *)
Theorem macd_difference_exact
    (df : DataFrame) (n_fast n_slow n_signal : Z) (xs : list num) :
  df_columns df !! LStr "Close" = Some xs ->
  1 <= n_fast -> 1 <= n_slow -> 1 <= n_signal ->
  exists (ema_fast ema_slow macd sig dif : Series) (e : EWM),
    exponential_moving_average df n_fast "Close" = Ok ema_fast /\
    exponential_moving_average df n_slow "Close" = Ok ema_slow /\
    moving_average_convergence_divergence df n_fast n_slow n_signal
      = Ok (macd, sig, dif) /\
    ewm_span macd n_signal n_signal = Ok e /\
    sig = ewm_mean e /\
    forall i : nat, (i < length xs)%nat ->
      exists f s m g : num,
        s_values ema_fast !! i = Some f /\
        s_values ema_slow !! i = Some s /\
        s_values macd !! i = Some m /\ m = Num.sub f s /\
        s_values sig !! i = Some g /\
        s_values dif !! i = Some (Num.sub m g).
Proof.
  intros Hcol Hf Hs Hg.
  unfold moving_average_convergence_divergence.
  rewrite (ema_ok _ _ _ _ Hcol Hf), (ema_ok _ _ _ _ Hcol Hs). simpl.
  rewrite ewm_span_ok by assumption. simpl.
  do 6 eexists. do 3 (split; [reflexivity|]).
  split; [now apply ewm_span_ok|]. split; [reflexivity|].
  intros i Hi. simpl.
  set (fast := ewm_values _ n_fast xs).
  set (slow := ewm_values _ n_slow xs).
  destruct (lookup_lt_is_Some_2 fast i) as [f Hfi];
    [unfold fast; now rewrite ewm_values_length|].
  destruct (lookup_lt_is_Some_2 slow i) as [s Hsi];
    [unfold slow; now rewrite ewm_values_length|].
  pose proof (zip_with_lookup_both Num.sub _ _ _ _ _ Hfi Hsi) as Hm.
  set (macd := zip_with Num.sub fast slow) in *.
  destruct (lookup_lt_is_Some_2 (ewm_values ((Qc_of_Z n_signal - 1) / 2)%Qc
                                   n_signal macd) i) as [g Hgi].
  { rewrite ewm_values_length. now apply lookup_lt_Some in Hm. }
  exists f, s, (Num.sub f s), g. repeat split; try assumption.
  now apply zip_with_lookup_both.
Qed.

Lemma macd_difference_exact_witness :
  exists macd sig dif : Series,
    moving_average_convergence_divergence one_to_ten 2 3 2
      = Ok (macd, sig, dif) /\
    exists m g : num,
      s_values macd !! 5%nat = Some m /\ s_values sig !! 5%nat = Some g /\
      s_values dif !! 5%nat = Some (Num.sub m g).
Proof.
  destruct (macd_difference_exact one_to_ten 2 3 2 (prices_of (seqZ 1 10)))
    as (ef & es & macd & sig & dif & e & _ & _ & Hm & _ & _ & Hi).
  - vm_compute. reflexivity.
  - lia.
  - lia.
  - lia.
  - exists macd, sig, dif. split; [exact Hm|].
    destruct (Hi 5%nat) as (f & s & m & g & _ & _ & H1 & _ & H2 & H3).
    + vm_compute. lia.
    + exists m, g. auto.
Defined.

(** ** Errors of the stochastic oscillator *)

Lemma bind_err {A B : Type} (r : result A) (k : A -> result B) (e : error) :
  bind r k = Err e -> r = Err e \/ exists a, r = Ok a /\ k a = Err e.
Proof. destruct r as [a|e']; simpl; [eauto|intros [= ->]; auto]. Qed.

Lemma getitem_err df key e : getitem df key = Err e -> library_error e.
Proof.
  unfold getitem. destruct (df_columns df !! key); [discriminate|].
  intros [= <-]. exact I.
Qed.

Lemma rolling_err s w m e : rolling s w m = Err e -> library_error e.
Proof.
  unfold rolling. repeat case_match; try discriminate;
    intros [= <-]; simpl; discriminate.
Qed.

Lemma ewm_span_err s span m e : ewm_span s span m = Err e -> library_error e.
Proof.
  unfold ewm_span. case_match; [|discriminate].
  intros [= <-]. simpl. discriminate.
Qed.

(** Splits a failed run of calls into the call that failed. *)
Ltac err_calls :=
  repeat match goal with
  | H : bind _ _ = Err _ |- _ =>
      apply bind_err in H; destruct H as [H|(? & ? & H)]
  | H : Ok _ = Err _ |- _ => discriminate H
  | H : getitem _ _ = Err _ |- _ => exact (getitem_err _ _ _ H)
  | H : rolling _ _ _ = Err _ |- _ => exact (rolling_err _ _ _ _ H)
  | H : ewm_span _ _ _ = Err _ |- _ => exact (ewm_span_err _ _ _ _ H)
  end.

Lemma sma_err df n prices e :
  simple_moving_average df n prices = Err e -> library_error e.
Proof. unfold simple_moving_average. intros H. err_calls. Qed.

Lemma wma_err df n prices e :
  weighted_moving_average df n prices = Err e -> library_error e.
Proof. unfold weighted_moving_average. intros H. err_calls. Qed.

Lemma ema_err df n prices e :
  exponential_moving_average df n prices = Err e -> library_error e.
Proof. unfold exponential_moving_average. intros H. err_calls. Qed.

Lemma stochastic_k_frame_err df n_k prices e :
  stochastic_k_frame df n_k prices = Err e -> library_error e.
Proof.
  unfold stochastic_k_frame, highest_high, lowest_low. intros H. err_calls.
Qed.

Lemma stochastic_k_frame_returns df n_k prices xs :
  df_columns df !! LStr prices = Some xs -> 0 <= n_k ->
  exists k, stochastic_k_frame df n_k prices = Ok k.
Proof.
  intros Hcol Hn. unfold stochastic_k_frame, highest_high, lowest_low.
  rewrite (getitem_ok _ _ _ Hcol). simpl. rewrite rolling_ok by assumption.
  simpl. eauto.
Qed.

Lemma unsupported_eqb d_type :
  ~ supported d_type ->
  String.eqb d_type "sma" = false /\ String.eqb d_type "wma" = false /\
  String.eqb d_type "ema" = false.
Proof.
  unfold supported. intros Hn.
  repeat split; apply String.eqb_neq; intros ->; tauto.
Qed.

(** C5. When the column is present and [n_k] is a valid window, every
    smoothing name other than 'sma', 'wma' and 'ema' makes
    [stochastic_oscillator] fail with the [ValueError] whose message names
    SMA, WMA and EMA (and with such a name the call fails on every input);
    with one of the three names that error is never raised. *)
Theorem stochastic_unsupported_d_type
    (df : DataFrame) (n_k n_d : Z) (prices d_type : string) :
  (~ supported d_type ->
     (exists e, stochastic_oscillator df n_k n_d prices d_type = Err e) /\
     (is_Some (df_columns df !! LStr prices) -> 0 <= n_k ->
      stochastic_oscillator df n_k n_d prices d_type =
      Err (ValueError "Only SMA, WMA and EMA are available."))) /\
  (supported d_type ->
     stochastic_oscillator df n_k n_d prices d_type <>
     Err (ValueError "Only SMA, WMA and EMA are available.")).
Proof.
  split.
  - intros Hun. destruct (unsupported_eqb _ Hun) as (H1 & H2 & H3).
    rewrite stochastic_oscillator_stages, H1, H2, H3. split.
    + destruct (stochastic_k_frame df n_k prices); simpl; eauto.
    + intros [xs Hcol] Hn.
      destruct (stochastic_k_frame_returns _ _ _ _ Hcol Hn) as [k ->].
      reflexivity.
  - intros Hsup H. rewrite stochastic_oscillator_stages in H.
    assert (Hlib : library_error (ValueError msg_d_type)).
    { apply bind_err in H as [H|(k & Hk & H)];
        [exact (stochastic_k_frame_err _ _ _ _ H)|].
      apply bind_err in H as [H|(d & Hd & H)]; [|discriminate].
      destruct Hsup as [-> | [-> | ->]]; simpl in H;
        eauto using sma_err, wma_err, ema_err. }
    simpl in Hlib. congruence.
Qed.

Lemma stochastic_unsupported_d_type_witness :
  stochastic_oscillator one_to_ten 3 2 "Close" "foo" =
    Err (ValueError "Only SMA, WMA and EMA are available.") /\
  stochastic_oscillator one_to_ten 3 2 "Close" "sma" <>
    Err (ValueError "Only SMA, WMA and EMA are available.").
Proof.
  split.
  - apply (stochastic_unsupported_d_type one_to_ten 3 2 "Close" "foo").
    + unfold supported. intros [H | [H | H]]; discriminate H.
    + vm_compute. eexists. reflexivity.
    + lia.
  - apply (stochastic_unsupported_d_type one_to_ten 3 2 "Close" "sma").
    unfold supported. left. reflexivity.
Defined.

(** The %K frame has a single column, named after the [prices] argument. *)
Lemma stochastic_k_frame_column df n_k prices xs :
  df_columns df !! LStr prices = Some xs -> 0 <= n_k ->
  exists (k : DataFrame) (vs : list num),
    stochastic_k_frame df n_k prices = Ok k /\
    df_columns k = {[ LStr prices := vs ]}.
Proof.
  intros Hcol Hn. unfold stochastic_k_frame, highest_high, lowest_low.
  rewrite (getitem_ok _ _ _ Hcol). simpl. rewrite rolling_ok by assumption.
  simpl. do 2 eexists. split; [reflexivity|].
  unfold frame_of_series. simpl. unfold join_name.
  repeat (rewrite decide_True by reflexivity; simpl). reflexivity.
Qed.

Lemma getitem_other_column (k : DataFrame) (a b : label) (vs : list num) :
  df_columns k = {[ a := vs ]} -> a <> b -> getitem k b = Err (KeyError b).
Proof.
  intros Hk Hne. unfold getitem. rewrite Hk.
  now rewrite lookup_singleton_ne.
Qed.

(** C10. With a supported smoothing name and a [prices] argument other than
    'Close', the call ends in a lookup error: for a column of the table and
    a valid window [n_k] the %K frame is built, with its single column named
    after [prices], and the moving-average helper fails when it looks up
    'Close' in it (a column that is not in the table fails at its own
    lookup, before %K). *)
Theorem stochastic_other_column_lookup_error
    (df : DataFrame) (n_k n_d : Z) (prices d_type : string) :
  prices <> "Close"%string ->
  supported d_type ->
  (is_Some (df_columns df !! LStr prices) ->
   0 <= n_k ->
   exists (k : DataFrame) (vs : list num),
     stochastic_k_frame df n_k prices = Ok k /\
     df_columns k = {[ LStr prices := vs ]} /\
     simple_moving_average k n_d "Close" = Err (KeyError (LStr "Close")) /\
     weighted_moving_average k n_d "Close" = Err (KeyError (LStr "Close")) /\
     exponential_moving_average k n_d "Close" = Err (KeyError (LStr "Close")) /\
     stochastic_oscillator df n_k n_d prices d_type =
     Err (KeyError (LStr "Close"))) /\
  (df_columns df !! LStr prices = None ->
   stochastic_oscillator df n_k n_d prices d_type =
   Err (KeyError (LStr prices))).
Proof.
  intros Hne Hsup. split.
  - intros [xs Hcol] Hn.
    destruct (stochastic_k_frame_column _ _ _ _ Hcol Hn)
      as (k & vs & Hk & Hc).
    assert (Hget : getitem k (LStr "Close") = Err (KeyError (LStr "Close"))).
    { apply (getitem_other_column _ _ _ _ Hc). congruence. }
    exists k, vs. split; [exact Hk|]. split; [exact Hc|].
    assert (Hs : simple_moving_average k n_d "Close"
                 = Err (KeyError (LStr "Close")))
      by (unfold simple_moving_average; now rewrite Hget).
    assert (Hw : weighted_moving_average k n_d "Close"
                 = Err (KeyError (LStr "Close")))
      by (unfold weighted_moving_average; now rewrite Hget).
    assert (He : exponential_moving_average k n_d "Close"
                 = Err (KeyError (LStr "Close")))
      by (unfold exponential_moving_average; now rewrite Hget).
    do 3 (split; [assumption|]).
    rewrite stochastic_oscillator_stages, Hk. simpl.
    destruct Hsup as [-> | [-> | ->]]; simpl; rewrite ?Hs, ?Hw, ?He;
      reflexivity.
  - intros Hnone. unfold stochastic_oscillator, getitem.
    now rewrite Hnone.
Qed.

Lemma stochastic_other_column_lookup_error_witness :
  stochastic_oscillator open_only 2 2 "Open" "ema" =
  Err (KeyError (LStr "Close")).
Proof.
  destruct (stochastic_other_column_lookup_error open_only 2 2 "Open" "ema")
    as [Hin _].
  - discriminate.
  - unfold supported. right. right. reflexivity.
  - destruct Hin as (k & vs & _ & _ & _ & _ & _ & H).
    + vm_compute. eexists. reflexivity.
    + lia.
    + exact H.
Defined.

(** ** Non-positive windows *)

(** With a window of 0 no error is raised: every position is undefined. *)
Lemma sma_window_zero_no_error :
  simple_moving_average one_to_ten 0 "Close" =
  Ok (mkSeries (Some (LStr "Close")) (seqZ 0 10) (replicate 10 NaN)).
Proof. vm_compute. reflexivity. Qed.

Lemma window_at_zero (xs : list num) (i : nat) : window_at 0 xs i = [].
Proof.
  unfold window_at, window_start.
  replace (S i - Z.to_nat (Z.max 0 (Z.of_nat i + 1 - 0)))%nat with 0%nat
    by lia.
  reflexivity.
Qed.

Lemma rolling_values_zero agg (xs : list num) :
  agg [] = NaN -> rolling_values 0 0 agg xs = replicate (length xs) NaN.
Proof.
  intros Hagg. apply list_eq. intros i.
  destruct (decide (i < length xs)%nat) as [Hi|Hi].
  - rewrite rolling_values_lookup by assumption. cbv zeta.
    rewrite window_at_zero, Hagg. simpl.
    symmetry. now apply lookup_replicate_2.
  - rewrite !lookup_ge_None_2;
      rewrite ?rolling_values_length, ?length_replicate; [reflexivity|lia|lia].
Qed.

(** C6 (amended). With the selected column present, a negative window makes
    [simple_moving_average] fail with the [ValueError] of the rolling-window
    constructor, after the column lookup and before any window is
    aggregated; a window of 0 raises nothing and yields a series that is
    undefined at every position. *)
Theorem sma_nonpositive_window
    (df : DataFrame) (n : Z) (prices : string) (xs : list num) :
  df_columns df !! LStr prices = Some xs ->
  n <= 0 ->
  (n < 0 ->
   exists s msg,
     getitem df (LStr prices) = Ok s /\
     rolling s n n = Err (ValueError msg) /\
     simple_moving_average df n prices = Err (ValueError msg)) /\
  (n = 0 ->
   simple_moving_average df n prices =
   Ok (mkSeries (Some (LStr prices)) (df_index df)
         (replicate (length xs) NaN))).
Proof.
  intros Hcol Hn. unfold simple_moving_average.
  rewrite (getitem_ok _ _ _ Hcol). simpl. split.
  - intros Hneg. do 2 eexists. split; [reflexivity|].
    unfold rolling. destruct (Z.ltb_spec n 0); [|lia]. split; reflexivity.
  - intros ->. simpl. unfold rolling_mean, rolling_agg. simpl.
    now rewrite rolling_values_zero.
Qed.

Lemma sma_nonpositive_window_witness :
  (exists msg,
     simple_moving_average one_to_ten (-2) "Close" = Err (ValueError msg)) /\
  simple_moving_average one_to_ten 0 "Close" =
  Ok (mkSeries (Some (LStr "Close")) (df_index one_to_ten)
        (replicate 10 NaN)).
Proof.
  split.
  - destruct (sma_nonpositive_window one_to_ten (-2) "Close"
                (prices_of (seqZ 1 10))) as [Hneg _].
    + vm_compute. reflexivity.
    + lia.
    + destruct Hneg as (s & msg & _ & _ & H); [lia|]. exists msg. exact H.
  - destruct (sma_nonpositive_window one_to_ten 0 "Close"
                (prices_of (seqZ 1 10))) as [_ Hzero].
    + vm_compute. reflexivity.
    + lia.
    + apply Hzero. reflexivity.
Defined.

(** ** Range of %K *)

Lemma observations_length_le (w : list num) :
  (length (observations w) <= length w)%nat.
Proof.
  unfold observations. induction w as [|x w IH]; [reflexivity|].
  destruct x; cbn; lia.
Qed.

Lemma observations_full (w : list num) :
  length (observations w) = length w -> w = Fin <$> observations w.
Proof.
  induction w as [|x w IH]; [reflexivity|].
  pose proof (observations_length_le w) as Hle.
  unfold observations in *. destruct x; cbn; intros Hlen; try lia.
  f_equal. apply IH. lia.
Qed.

Lemma window_length_le (w : Z) (xs : list num) (i : nat) :
  (length (window_at w xs i) <= Z.to_nat w)%nat.
Proof. unfold window_at, window_start. rewrite length_take. lia. Qed.

(** A non-empty window ends with the entry of its position. *)
Lemma window_last (w : Z) (xs : list num) (i : nat) :
  (i < length xs)%nat -> window_at w xs i <> [] ->
  window_at w xs i !! (i - window_start w i)%nat = xs !! i.
Proof.
  intros Hi Hne. unfold window_at in *.
  destruct (decide (window_start w i <= i)%nat) as [Hs|Hs].
  - rewrite lookup_take_lt by lia. rewrite lookup_drop. f_equal. lia.
  - exfalso. apply Hne.
    replace (S i - window_start w i)%nat with 0%nat by lia. reflexivity.
Qed.

Lemma Qc_min_le_l (a b : Qc) : (Qc_min a b <= a)%Qc.
Proof.
  unfold Qc_min. destruct (Qclt_le_dec b a).
  - now apply Qclt_le_weak.
  - apply Qcle_refl.
Qed.

Lemma Qc_min_le_r (a b : Qc) : (Qc_min a b <= b)%Qc.
Proof.
  unfold Qc_min. destruct (Qclt_le_dec b a); [apply Qcle_refl|assumption].
Qed.

Lemma Qc_max_ge_l (a b : Qc) : (a <= Qc_max a b)%Qc.
Proof.
  unfold Qc_max. destruct (Qclt_le_dec a b).
  - now apply Qclt_le_weak.
  - apply Qcle_refl.
Qed.

Lemma Qc_max_ge_r (a b : Qc) : (b <= Qc_max a b)%Qc.
Proof.
  unfold Qc_max. destruct (Qclt_le_dec a b); [apply Qcle_refl|assumption].
Qed.

Lemma foldr_min_le (q0 : Qc) (qs : list Qc) (q : Qc) :
  q ∈ q0 :: qs -> (foldr Qc_min q0 qs <= q)%Qc.
Proof.
  induction qs as [|a qs IH]; simpl; intros Hin.
  - apply list_elem_of_singleton in Hin as ->. apply Qcle_refl.
  - apply elem_of_cons in Hin as [->|Hin].
    + eapply Qcle_trans; [apply Qc_min_le_r|]. apply IH. left.
    + apply elem_of_cons in Hin as [->|Hin]; [apply Qc_min_le_l|].
      eapply Qcle_trans; [apply Qc_min_le_r|]. apply IH. now right.
Qed.

Lemma foldr_max_ge (q0 : Qc) (qs : list Qc) (q : Qc) :
  q ∈ q0 :: qs -> (q <= foldr Qc_max q0 qs)%Qc.
Proof.
  induction qs as [|a qs IH]; simpl; intros Hin.
  - apply list_elem_of_singleton in Hin as ->. apply Qcle_refl.
  - apply elem_of_cons in Hin as [->|Hin].
    + eapply Qcle_trans; [|apply Qc_max_ge_r]. apply IH. left.
    + apply elem_of_cons in Hin as [->|Hin]; [apply Qc_max_ge_l|].
      eapply Qcle_trans; [|apply Qc_max_ge_r]. apply IH. now right.
Qed.

Lemma sub_fin_inv (x y : num) (r : Qc) :
  Num.sub x y = Fin r -> exists a b, x = Fin a /\ y = Fin b /\ r = (a + - b)%Qc.
Proof.
  destruct x, y; simpl; try discriminate. intros [= <-]. eauto.
Qed.

Lemma prep_value_fin_inv (x : num) (q : Qc) : prep_value x = Fin q -> x = Fin q.
Proof. destruct x; simpl; congruence. Qed.

(** Where both rolling extrema are defined, the window is full of finite
    values, the entry of the position is one of them and lies between the
    two extrema. *)
Lemma rolling_extrema_bracket (n : Z) (xs : list num) (i : nat) (h l : Qc) :
  rolling_values n n agg_max xs !! i = Some (Fin h) ->
  rolling_values n n agg_min xs !! i = Some (Fin l) ->
  exists q, xs !! i = Some (Fin q) /\ (l <= q)%Qc /\ (q <= h)%Qc.
Proof.
  intros Hh Hl.
  assert (Hi : (i < length xs)%nat).
  { apply lookup_lt_Some in Hh. now rewrite rolling_values_length in Hh. }
  rewrite rolling_values_lookup in Hh, Hl by assumption. cbv zeta in Hh, Hl.
  set (win := window_at n (prep_values xs) i) in *.
  destruct (bool_decide (n <= Z.of_nat (length (observations win))))
    eqn:Hfull; [|discriminate].
  apply bool_decide_eq_true_1 in Hfull.
  unfold agg_max in Hh. unfold agg_min in Hl.
  destruct (observations win) as [|q0 qs] eqn:Hobs; [discriminate|].
  injection Hh as <-. injection Hl as <-.
  pose proof (window_length_le n (prep_values xs) i) as Hwl.
  pose proof (observations_length_le win) as Hol. fold win in Hwl.
  assert (Hwin : win = Fin <$> q0 :: qs).
  { rewrite <- Hobs. apply observations_full. rewrite Hobs in *. lia. }
  assert (Hne : win <> []) by (rewrite Hwin; discriminate).
  pose proof (window_last n (prep_values xs) i) as Hlast. fold win in Hlast.
  unfold prep_values in Hlast at 1. rewrite length_fmap in Hlast.
  specialize (Hlast Hi Hne). rewrite Hwin in Hlast.
  unfold prep_values in Hlast. rewrite !list_lookup_fmap in Hlast.
  destruct (xs !! i) as [x|] eqn:Hx;
    [|apply lookup_ge_None in Hx; lia].
  destruct ((q0 :: qs) !! (i - window_start n i)%nat) as [q|] eqn:Hq;
    [|discriminate].
  simpl in Hlast. injection Hlast as Hlast.
  symmetry in Hlast. apply prep_value_fin_inv in Hlast as ->.
  apply list_elem_of_lookup_2 in Hq.
  exists q. split; [reflexivity|].
  split; [now apply foldr_min_le | now apply foldr_max_ge].
Qed.

Lemma Qc_100_pos : (0 < Qc_of_Z 100)%Qc.
Proof. reflexivity. Qed.

(** A position between the extrema of a non-degenerate range, scaled to a
    percentage. *)
Lemma percent_bounds (q l h : Qc) :
  (l <= q)%Qc -> (q <= h)%Qc -> (0 < h + - l)%Qc ->
  (0 <= (q + - l) / (h + - l) * Qc_of_Z 100)%Qc /\
  ((q + - l) / (h + - l) * Qc_of_Z 100 <= Qc_of_Z 100)%Qc.
Proof.
  intros Hlq Hqh Hr.
  assert (Ha : (0 <= q + - l)%Qc).
  { apply (Qcplus_le_mono_r l q (- l)%Qc) in Hlq.
    now rewrite Qcplus_opp_r in Hlq. }
  assert (Hab : (q + - l <= h + - l)%Qc)
    by now apply Qcplus_le_mono_r.
  assert (Hinv : (0 < / (h + - l))%Qc) by now apply Qcinv_pos.
  assert (Hne : (h + - l)%Qc <> 0%Qc).
  { intros He. rewrite He in Hr. now apply Qclt_not_eq in Hr. }
  assert (H100 := Qc_100_pos).
  assert (H0 : (0 <= (q + - l) / (h + - l))%Qc).
  { apply Qcmult_nonneg_nonneg; [assumption|now apply Qclt_le_weak]. }
  assert (H1 : ((q + - l) / (h + - l) <= 1)%Qc).
  { rewrite <- (Qcmult_inv_r (h + - l)%Qc) by assumption.
    apply Qcmult_le_mono_nonneg_r; [now apply Qclt_le_weak|assumption]. }
  split.
  - apply Qcmult_nonneg_nonneg; [assumption|now apply Qclt_le_weak].
  - rewrite <- (Qcmult_1_l (Qc_of_Z 100)) at 2.
    apply Qcmult_le_mono_nonneg_r; [now apply Qclt_le_weak|assumption].
Qed.

Lemma stochastic_k_frame_bounded df n_k prices K :
  stochastic_k_frame df n_k prices = Ok K ->
  exists (range : Series) (kv : list num),
    rolling_range df n_k prices = Ok range /\
    df_columns K !! LStr prices = Some kv /\
    forall (i : nat) (r : Qc),
      s_values range !! i = Some (Fin r) -> (0 < r)%Qc ->
      exists k : Qc,
        kv !! i = Some (Fin k) /\ (0 <= k)%Qc /\ (k <= Qc_of_Z 100)%Qc.
Proof.
  intros HK. unfold rolling_range.
  unfold stochastic_k_frame in HK.
  apply bind_ok in HK as (hh & Hhh & HK). apply bind_ok in HK as (ll & Hll & HK).
  apply bind_ok in HK as (x & Hx & HK). injection HK as <-.
  rewrite Hhh, Hll. simpl.
  unfold highest_high in Hhh. unfold lowest_low in Hll.
  inv_calls. rename select (getitem df _ = Ok x) into Hx.
  repeat match goal with
  | H : getitem df _ = Ok ?y |- _ =>
      lazymatch y with x => fail | _ => rewrite Hx in H; symmetry in H end
  end.
  simplify_eq.
  unfold getitem in Hx.
  destruct (df_columns df !! LStr prices) as [xs|] eqn:Hcol; [|discriminate].
  injection Hx as <-.
  do 2 eexists. split; [reflexivity|]. split.
  { unfold frame_of_series. simpl. unfold join_name.
    repeat (rewrite decide_True by reflexivity; simpl).
    apply lookup_singleton_eq. }
  simpl. intros i r Hr Hpos.
  apply lookup_zip_with_Some in Hr as (hv & lv & Hsub & Hhv & Hlv).
  symmetry in Hsub. apply sub_fin_inv in Hsub as (h & l & -> & -> & ->).
  destruct (rolling_extrema_bracket _ _ _ _ _ Hhv Hlv) as (q & Hq & Hlq & Hqh).
  destruct (percent_bounds q l h Hlq Hqh Hpos) as [Hlo Hhi].
  eexists. split; [|split; [exact Hlo|exact Hhi]].
  rewrite list_lookup_fmap.
  rewrite (zip_with_lookup_both Num.div _ _ i
             (Num.sub (Fin q) (Fin l)) (Num.sub (Fin h) (Fin l))).
  - simpl option_map. cbn [fmap option_fmap option_map Num.sub Num.add Num.neg].
    rewrite div_fin.
    + reflexivity.
    + intros He. rewrite He in Hpos. now apply Qclt_not_eq in Hpos.
  - now apply zip_with_lookup_both.
  - now apply zip_with_lookup_both.
Qed.

(** C7. Wherever the trailing range of the column (highest high minus
    lowest low over the [n_k] window) is strictly positive, the %K value
    returned by [stochastic_oscillator] at that position lies in [0, 100]. *)
Theorem stochastic_k_in_0_100
    (df : DataFrame) (n_k n_d : Z) (prices d_type : string)
    (K : DataFrame) (D : Series) :
  stochastic_oscillator df n_k n_d prices d_type = Ok (K, D) ->
  exists (range : Series) (kv : list num),
    rolling_range df n_k prices = Ok range /\
    df_columns K !! LStr prices = Some kv /\
    forall (i : nat) (r : Qc),
      s_values range !! i = Some (Fin r) -> (0 < r)%Qc ->
      exists k : Qc,
        kv !! i = Some (Fin k) /\ (0 <= k)%Qc /\ (k <= Qc_of_Z 100)%Qc.
Proof.
  intros H. rewrite stochastic_oscillator_stages in H.
  apply bind_ok in H as (K' & HK & H). apply bind_ok in H as (D' & _ & H).
  injection H as <- <-. now apply stochastic_k_frame_bounded.
Qed.

Lemma stochastic_k_in_0_100_witness :
  exists (K : DataFrame) (D : Series) (kv : list num) (k : Qc),
    stochastic_oscillator zigzag 2 2 "Close" "sma" = Ok (K, D) /\
    df_columns K !! LStr "Close" = Some kv /\
    kv !! 2%nat = Some (Fin k) /\ (0 <= k)%Qc /\ (k <= Qc_of_Z 100)%Qc.
Proof.
  destruct (stochastic_oscillator zigzag 2 2 "Close" "sma")
    as [[K D]|e] eqn:Hrun.
  - destruct (stochastic_k_in_0_100 zigzag 2 2 "Close" "sma" K D Hrun)
      as (range & kv & Hrange & Hkv & Hb).
    vm_compute in Hrange. injection Hrange as <-.
    destruct (Hb 2%nat _ eq_refl) as (k & Hk & Hlo & Hhi).
    + vm_compute. reflexivity.
    + exists K, D, kv, k. auto.
  - vm_compute in Hrun. discriminate Hrun.
Defined.

(** ** Bollinger bands *)

(** With the multiplier -1 and a spread of 1 the bands are swapped: the
    lower band lies above the centre and the upper band below it. *)
Lemma bollinger_negative_multiplier :
  exists center spread lower upper : Series,
    bollinger_center high_low_close 3 = Ok center /\
    bollinger_spread root_of_square high_low_close 3 = Ok spread /\
    bollinger_bands root_of_square high_low_close 3 (of_Z (-1))
      = Ok (lower, upper) /\
    s_values center !! 2%nat = Some (of_Z 2) /\
    s_values spread !! 2%nat = Some (of_Z 1) /\
    s_values lower !! 2%nat = Some (of_Z 3) /\
    s_values upper !! 2%nat = Some (of_Z 1) /\
    ~ Num.le (of_Z 3) (of_Z 2) /\ ~ Num.le (of_Z 2) (of_Z 1).
Proof.
  do 4 eexists. do 3 (split; [reflexivity|]).
  do 4 (split; [by_eval|]).
  split; intros H; vm_compute in H; apply H; reflexivity.
Qed.

Lemma typical_price_returns (df : DataFrame) (h l c : list num) :
  df_columns df !! LStr "High" = Some h ->
  df_columns df !! LStr "Low" = Some l ->
  df_columns df !! LStr "Close" = Some c ->
  exists tp, typical_price df = Ok tp.
Proof.
  intros Hh Hl Hc. unfold typical_price.
  rewrite (getitem_ok _ _ _ Hh), (getitem_ok _ _ _ Hl), (getitem_ok _ _ _ Hc).
  simpl. eauto.
Qed.

Lemma band_order (mq cq sq : Qc) :
  (0 <= mq)%Qc -> (0 <= sq)%Qc ->
  Num.le (Num.sub (Fin cq) (Num.mul (Fin mq) (Fin sq))) (Fin cq) /\
  Num.le (Fin cq) (Num.add (Fin cq) (Num.mul (Fin mq) (Fin sq))).
Proof.
  intros Hm Hs. simpl.
  assert (Hms : (0 <= mq * sq)%Qc) by now apply Qcmult_nonneg_nonneg.
  split.
  - apply (Qcplus_le_mono_r _ _ (mq * sq)%Qc).
    replace (cq + - (mq * sq) + mq * sq)%Qc with (cq + 0)%Qc by ring.
    now apply Qcplus_le_mono_l.
  - rewrite <- (Qcplus_0_r cq) at 1. now apply Qcplus_le_mono_l.
Qed.

(** C8 (amended). With the three columns present and a valid window,
    [bollinger_bands] returns (lower, upper) in that order, where at every
    position lower = centre - m * spread and upper = centre + m * spread,
    the centre being the rolling mean of the typical price and the spread
    its rolling sample standard deviation; for a non-negative multiplier
    [m], wherever the centre is defined and the spread is non-negative,
    lower <= centre <= upper. *)
Theorem bollinger_bands_order
    (sqrt : Qc -> Qc) (df : DataFrame) (n : Z) (m : num) (h l c : list num) :
  df_columns df !! LStr "High" = Some h ->
  df_columns df !! LStr "Low" = Some l ->
  df_columns df !! LStr "Close" = Some c ->
  0 <= n ->
  exists tp center spread lower upper : Series,
    typical_price df = Ok tp /\
    center = rolling_mean (mkRolling tp n n) /\
    spread = rolling_std sqrt (mkRolling tp n n) /\
    bollinger_bands sqrt df n m = Ok (lower, upper) /\
    (forall (i : nat) (cv sv : num),
        s_values center !! i = Some cv -> s_values spread !! i = Some sv ->
        s_values lower !! i = Some (Num.sub cv (Num.mul m sv)) /\
        s_values upper !! i = Some (Num.add cv (Num.mul m sv))) /\
    (forall (mq : Qc) (i : nat) (cq sq : Qc),
        m = Fin mq -> (0 <= mq)%Qc ->
        s_values center !! i = Some (Fin cq) ->
        s_values spread !! i = Some (Fin sq) -> (0 <= sq)%Qc ->
        exists lo up : num,
          s_values lower !! i = Some lo /\ s_values upper !! i = Some up /\
          Num.le lo (Fin cq) /\ Num.le (Fin cq) up).
Proof.
  intros Hh Hl Hc Hn.
  destruct (typical_price_returns _ _ _ _ Hh Hl Hc) as [tp Htp].
  rewrite bollinger_bands_stages.
  unfold bollinger_center, bollinger_spread. rewrite Htp. simpl. rewrite rolling_ok by assumption. simpl.
  do 5 eexists. do 4 (split; [reflexivity|]).
  assert (Hval : forall (i : nat) (cv sv : num),
    s_values (rolling_mean (mkRolling tp n n)) !! i = Some cv ->
    s_values (rolling_std sqrt (mkRolling tp n n)) !! i = Some sv ->
    s_values (series_binop Num.sub (rolling_mean (mkRolling tp n n))
                (series_map (Num.mul m) (rolling_std sqrt (mkRolling tp n n))))
      !! i = Some (Num.sub cv (Num.mul m sv)) /\
    s_values (series_binop Num.add (rolling_mean (mkRolling tp n n))
                (series_map (Num.mul m) (rolling_std sqrt (mkRolling tp n n))))
      !! i = Some (Num.add cv (Num.mul m sv))).
  { intros i cv sv Hcv Hsv. simpl in *.
    split; apply zip_with_lookup_both; try assumption;
      now rewrite list_lookup_fmap, Hsv. }
  split; [exact Hval|].
  intros mq i cq sq -> Hm Hcv Hsv Hs.
  destruct (Hval i _ _ Hcv Hsv) as [Hlo Hup].
  do 2 eexists. split; [exact Hlo|]. split; [exact Hup|].
  now apply band_order.
Qed.

Lemma bollinger_bands_order_witness :
  exists lower upper : Series,
    bollinger_bands root_of_square high_low_close 3 (of_Z 2)
      = Ok (lower, upper) /\
    exists lo up : num,
      s_values lower !! 2%nat = Some lo /\ s_values upper !! 2%nat = Some up /\
      Num.le lo (of_Z 2) /\ Num.le (of_Z 2) up.
Proof.
  destruct (bollinger_bands_order root_of_square high_low_close 3 (of_Z 2)
              (prices_of [2; 3; 4]) (prices_of [0; 1; 2])
              (prices_of [1; 2; 3]))
    as (tp & center & spread & lower & upper & Htp & Hc & Hs & Hrun & _ & Hord).
  - vm_compute. reflexivity.
  - vm_compute. reflexivity.
  - vm_compute. reflexivity.
  - lia.
  - exists lower, upper. split; [exact Hrun|].
    vm_compute in Htp. injection Htp as <-.
    apply (Hord (Qc_of_Z 2) 2%nat (Qc_of_Z 2) (Qc_of_Z 1)).
    + reflexivity.
    + vm_compute. discriminate.
    + rewrite Hc. by_eval.
    + rewrite Hs. by_eval.
    + vm_compute. discriminate.
Defined.

(** ** Relative strength index *)

(** The recurrence keeps every property of the observations that a
    weighted average preserves. *)
Section EwmInvariant.

Variable P : Qc -> Prop.
Hypothesis P_average :
  forall ow w c : Qc,
    (0 <= ow)%Qc -> P w -> P c -> P ((ow * w + 1 * c) / (ow + 1))%Qc.

Variable factor : Qc.
Hypothesis factor_nonneg : (0 <= factor)%Qc.

Lemma ewm_step_inv (st : ewm_state) (c : Qc) :
  state_inv P st -> P c ->
  exists w,
    P w /\ weighted (ewm_step factor st (Some c)) = Some w /\
    nobs (ewm_step factor st (Some c)) = S (nobs st) /\
    state_inv P (ewm_step factor st (Some c)).
Proof.
  intros [Hwt Hw] Hc. unfold ewm_step.
  destruct (weighted st) as [w|].
  - assert (How : (0 <= old_wt st * factor)%Qc)
      by now apply Qcmult_nonneg_nonneg.
    assert (Hw' : P (if decide (w = c) then w
                     else (old_wt st * factor * w + 1 * c)
                          / (old_wt st * factor + 1))%Qc).
    { destruct (decide (w = c)); [assumption|now apply P_average]. }
    eexists. split; [exact Hw'|]. split; [reflexivity|].
    split; [reflexivity|]. split; simpl; [|exact Hw'].
    apply Qcplus_nonneg_nonneg; [assumption|discriminate].
  - exists c. repeat split; simpl; assumption.
Qed.

Lemma ewm_loop_inv (minp : Z) (us : list Qc) :
  Forall P us ->
  forall (st : ewm_state) (j : nat),
    state_inv P st -> (j < length us)%nat ->
    exists w,
      P w /\
      ewm_loop factor minp st (Fin <$> us) !! j =
      Some (if bool_decide (minp <= Z.of_nat (nobs st + S j))
            then Fin w else NaN).
Proof.
  induction 1 as [|c us Hc Hus IH]; intros st j Hst Hj; [simpl in Hj; lia|].
  destruct (ewm_step_inv st c Hst Hc) as (w & Hw & Hwe & Hn & Hst').
  cbn [fmap list_fmap ewm_loop observation].
  destruct j as [|j].
  - exists w. split; [assumption|]. cbn [lookup list_lookup].
    unfold ewm_out. rewrite Hwe, Hn. simpl of_observation.
    now replace (nobs st + 1)%nat with (S (nobs st)) by lia.
  - cbn [lookup list_lookup].
    destruct (IH _ j Hst') as (w' & Hw' & Hj'); [simpl in Hj; lia|].
    exists w'. split; [assumption|].
    rewrite Hn in Hj'.
    replace (nobs st + S (S j))%nat with (S (nobs st) + S j)%nat by lia.
    exact Hj'.
Qed.

End EwmInvariant.

(** Smoothing of a series whose first entry is missing and whose other
    entries are finite and satisfy [P]: defined from position [n] on. *)
Lemma ewm_values_after_gap (P : Qc -> Prop) (n : Z) (us : list Qc) (i : nat) :
  (forall ow w c : Qc,
      (0 <= ow)%Qc -> P w -> P c -> P ((ow * w + 1 * c) / (ow + 1))%Qc) ->
  Forall P us -> 1 <= n -> n <= Z.of_nat i -> (i <= length us)%nat ->
  exists w,
    P w /\
    ewm_values (Qc_of_Z (n - 1)) n (NaN :: (Fin <$> us)) !! i = Some (Fin w).
Proof.
  intros Havg Hus Hn Hi Hlen. unfold ewm_values.
  assert (Hprep : prep_values (NaN :: (Fin <$> us)) = NaN :: (Fin <$> us)).
  { unfold prep_values. cbn. f_equal. apply prep_values_fin. }
  rewrite Hprep. destruct i as [|j]; [lia|]. cbn [lookup list_lookup].
  change (list_lookup j ?l) with (l !! j).
  set (factor := (1 - 1 / (1 + Qc_of_Z (n - 1)))%Qc).
  assert (Hfac : (0 <= factor)%Qc).
  { assert (Hc : (0 <= Qc_of_Z (n - 1))%Qc).
    { apply Qc_of_Z_nonneg. lia. }
    assert (Hd : (0 < 1 + Qc_of_Z (n - 1))%Qc).
    { apply Qcplus_pos_nonneg; [reflexivity|assumption]. }
    assert (Hne : (1 + Qc_of_Z (n - 1))%Qc <> 0%Qc).
    { intros He. rewrite He in Hd. now apply Qclt_not_eq in Hd. }
    replace factor with (Qc_of_Z (n - 1) * / (1 + Qc_of_Z (n - 1)))%Qc
      by (unfold factor; field; assumption).
    apply Qcmult_nonneg_nonneg; [assumption|].
    apply Qclt_le_weak. now apply Qcinv_pos. }
  destruct (ewm_loop_inv P Havg factor Hfac (Z.max n 1) us Hus
              (ewm_init NaN) j) as (w & Hw & Hj).
  - split; simpl; [discriminate|exact I].
  - lia.
  - exists w. split; [assumption|].
    rewrite bool_decide_eq_true_2 in Hj by (simpl nobs; lia). exact Hj.
Qed.

Lemma zip_sub_fin (a b : list Qc) :
  zip_with Num.sub (Fin <$> a) (Fin <$> b) =
  Fin <$> zip_with (fun x y => (x + - y)%Qc) a b.
Proof.
  revert b. induction a as [|x a IH]; intros [|y b]; try reflexivity.
  cbn. f_equal. apply IH.
Qed.

(** Successive differences of a strictly increasing list are positive. *)
Lemma increasing_differences (q0 : Qc) (rest : list Qc) :
  strictly_increasing (q0 :: rest) ->
  Forall (fun d => (0 < d)%Qc)
    (zip_with (fun x y => (x + - y)%Qc) rest (q0 :: rest)).
Proof.
  intros Hinc. apply Forall_lookup. intros i d Hd.
  apply lookup_zip_with_Some in Hd as (x & y & -> & Hx & Hy).
  pose proof (Hinc i y x Hy Hx) as Hlt.
  apply (Qcplus_lt_mono_r y x (- y)%Qc) in Hlt.
  now rewrite Qcplus_opp_r in Hlt.
Qed.

Lemma clip_positive (d : Qc) : (0 < d)%Qc -> clip_lower0 (Fin d) = Fin d.
Proof.
  intros Hd. simpl. unfold sgn.
  apply Qcgt_alt in Hd. now rewrite Hd.
Qed.

Lemma clip_neg_positive (d : Qc) :
  (0 < d)%Qc -> clip_lower0 (Num.neg (Fin d)) = Fin 0%Qc.
Proof.
  intros Hd. simpl. unfold sgn.
  assert (Hlt : (- d < 0)%Qc).
  { apply Qclt_minus_iff. now rewrite Qcopp_involutive, Qcplus_0_l. }
  destruct (Qclt_alt (- d) 0) as [Hcmp _]. now rewrite (Hcmp Hlt).
Qed.

Lemma gains_of_increasing (ds : list Qc) :
  Forall (fun d => (0 < d)%Qc) ds ->
  clip_lower0 <$> (Fin <$> ds) = Fin <$> ds.
Proof.
  induction 1 as [|d ds Hd _ IH]; [reflexivity|].
  cbn [fmap list_fmap]. rewrite clip_positive by assumption.
  f_equal. exact IH.
Qed.

Lemma losses_of_increasing (ds : list Qc) :
  Forall (fun d => (0 < d)%Qc) ds ->
  clip_lower0 <$> (Num.neg <$> (Fin <$> ds)) =
  Fin <$> replicate (length ds) 0%Qc.
Proof.
  induction 1 as [|d ds Hd _ IH]; [reflexivity|].
  cbn [fmap list_fmap length replicate].
  rewrite clip_neg_positive by assumption. f_equal. exact IH.
Qed.

Lemma average_positive (ow w c : Qc) :
  (0 <= ow)%Qc -> (0 < w)%Qc -> (0 < c)%Qc ->
  (0 < (ow * w + 1 * c) / (ow + 1))%Qc.
Proof.
  intros How Hw Hc. apply Qcmult_pos_pos.
  - apply Qcplus_nonneg_pos.
    + apply Qcmult_nonneg_nonneg; [assumption|now apply Qclt_le_weak].
    + now rewrite Qcmult_1_l.
  - apply Qcinv_pos. apply Qcplus_nonneg_pos; [assumption|reflexivity].
Qed.

Lemma average_zero (ow w c : Qc) :
  (0 <= ow)%Qc -> w = 0%Qc -> c = 0%Qc ->
  ((ow * w + 1 * c) / (ow + 1))%Qc = 0%Qc.
Proof. intros _ -> ->. unfold Qcdiv. ring. Qed.

Lemma rsi_stages (df : DataFrame) (n : Z) (prices : string) (xs : list num) :
  df_columns df !! LStr prices = Some xs -> 1 <= n ->
  let s := mkSeries (Some (LStr prices)) (df_index df) xs in
  let g := ewm_mean (mkEWM (series_map clip_lower0 (series_diff s))
                           (Qc_of_Z (n - 1)) n) in
  let l := ewm_mean (mkEWM (series_map clip_lower0
                              (series_map Num.neg (series_diff s)))
                           (Qc_of_Z (n - 1)) n) in
  smoothed_gains df n prices = Ok g /\
  smoothed_losses df n prices = Ok l /\
  relative_strength df n prices = Ok (series_binop Num.div g l) /\
  relative_strength_index df n prices =
  Ok (series_map rsi_of_rs (series_binop Num.div g l)).
Proof.
  intros Hcol Hn s g l.
  assert (Hcom : forall u, ewm_com u (n - 1) n = Ok (mkEWM u (Qc_of_Z (n - 1)) n)).
  { intros u. unfold ewm_com. destruct (Z.ltb_spec (n - 1) 0); [lia|easy]. }
  assert (Hg : smoothed_gains df n prices = Ok g).
  { unfold smoothed_gains. rewrite (getitem_ok _ _ _ Hcol). simpl.
    now rewrite Hcom. }
  assert (Hl : smoothed_losses df n prices = Ok l).
  { unfold smoothed_losses. rewrite (getitem_ok _ _ _ Hcol). simpl.
    now rewrite Hcom. }
  rewrite relative_strength_index_stages. unfold relative_strength.
  rewrite Hg, Hl. simpl. auto.
Qed.

Lemma rsi_of_infinite_rs : rsi_of_rs PInf = of_Z 100.
Proof. unfold rsi_of_rs, of_Z. simpl. f_equal. ring. Qed.

Lemma div_positive_by_zero (u : Qc) :
  (0 < u)%Qc -> Num.div (Fin u) (Fin 0%Qc) = PInf.
Proof.
  intros Hu. simpl. unfold sgn at 1.
  change (0 ?= 0)%Qc with Eq. simpl. unfold sgn.
  apply Qcgt_alt in Hu. now rewrite Hu.
Qed.

(** C9. With the column present and a lookback of at least 1 the index is
    computed without error, and at every position where the smoothed losses
    are zero and the smoothed gains positive the relative strength is
    +infinity and the index is 100; on a strictly increasing column of
    finite prices this is the case at every position from [n] on. *)
Theorem rsi_saturates_at_100 :
  (forall (df : DataFrame) (n : Z) (prices : string) (xs : list num),
     df_columns df !! LStr prices = Some xs -> 1 <= n ->
     exists g l rs rsi : Series,
       smoothed_gains df n prices = Ok g /\
       smoothed_losses df n prices = Ok l /\
       relative_strength df n prices = Ok rs /\
       relative_strength_index df n prices = Ok rsi /\
       forall (i : nat) (u : Qc),
         s_values l !! i = Some (Fin 0%Qc) ->
         s_values g !! i = Some (Fin u) -> (0 < u)%Qc ->
         s_values rs !! i = Some PInf /\
         s_values rsi !! i = Some (of_Z 100)) /\
  (forall (df : DataFrame) (n : Z) (prices : string) (qs : list Qc),
     df_columns df !! LStr prices = Some (Fin <$> qs) -> 1 <= n ->
     strictly_increasing qs ->
     exists rsi : Series,
       relative_strength_index df n prices = Ok rsi /\
       forall i : nat, n <= Z.of_nat i -> (i < length qs)%nat ->
         s_values rsi !! i = Some (of_Z 100)).
Proof.
  assert (Hpoint : forall (g l : list num) (i : nat) (u : Qc),
    l !! i = Some (Fin 0%Qc) -> g !! i = Some (Fin u) -> (0 < u)%Qc ->
    zip_with Num.div g l !! i = Some PInf /\
    (rsi_of_rs <$> zip_with Num.div g l) !! i = Some (of_Z 100)).
  { intros g l i u Hl Hg Hu.
    pose proof (zip_with_lookup_both Num.div _ _ _ _ _ Hg Hl) as Hrs.
    rewrite div_positive_by_zero in Hrs by assumption.
    split; [exact Hrs|].
    now rewrite list_lookup_fmap, Hrs, <- rsi_of_infinite_rs. }
  split.
  - intros df n prices xs Hcol Hn.
    destruct (rsi_stages df n prices xs Hcol Hn) as (Hg & Hl & Hrs & Hrsi).
    do 4 eexists. do 4 (split; [eassumption|]).
    intros i u Hli Hgi Hu. now apply (Hpoint _ _ i u).
  - intros df n prices qs Hcol Hn Hinc.
    destruct (rsi_stages df n prices _ Hcol Hn) as (_ & _ & _ & Hrsi).
    eexists. split; [exact Hrsi|]. intros i Hi Hlen. simpl.
    destruct qs as [|q0 rest]; [simpl in Hlen; lia|].
    pose proof (increasing_differences q0 rest Hinc) as Hds.
    set (ds := zip_with (fun x y => (x + - y)%Qc) rest (q0 :: rest)) in *.
    assert (Hdl : length ds = length rest).
    { unfold ds. rewrite length_zip_with. simpl. lia. }
    assert (Hdiff : diff_values (Fin <$> q0 :: rest) = NaN :: (Fin <$> ds)).
    { unfold ds. rewrite <- zip_sub_fin. reflexivity. }
    rewrite Hdiff. cbn [fmap list_fmap clip_lower0 Num.neg].
    change (list_fmap num num ?f ?l) with (f <$> l).
    rewrite gains_of_increasing, losses_of_increasing by assumption.
    simpl in Hlen.
    destruct (ewm_values_after_gap (fun w => (0 < w)%Qc) n ds i)
      as (u & Hu & Hgi); try assumption; try lia.
    { exact average_positive. }
    destruct (ewm_values_after_gap (fun w => w = 0%Qc) n
                (replicate (length ds) 0%Qc) i)
      as (z & -> & Hli); try assumption.
    { exact average_zero. }
    { apply Forall_replicate. reflexivity. }
    { rewrite length_replicate. lia. }
    now apply (Hpoint _ _ i u).
Qed.

Lemma rsi_saturates_at_100_witness :
  exists rsi : Series,
    relative_strength_index one_to_ten 3 "Close" = Ok rsi /\
    s_values rsi !! 5%nat = Some (of_Z 100).
Proof.
  destruct (proj2 rsi_saturates_at_100 one_to_ten 3 "Close"%string
              (Qc_of_Z <$> seqZ 1 10)) as (rsi & Hrun & Hval).
  - vm_compute. reflexivity.
  - lia.
  - intros i a b Ha Hb.
    do 9 (destruct i as [|i];
          [injection Ha as <-; injection Hb as <-; reflexivity|]).
    destruct i; discriminate Hb.
  - exists rsi. split; [exact Hrun|]. apply Hval; [lia|vm_compute; lia].
Defined.

(** * Further properties *)

(** ** Ordered-field reasoning on rationals *)

(** Moves an order goal on canonical rationals to plain rationals. *)
Ltac qc_order :=
  unfold Qcle, Qclt, Qcminus, Qcplus, Qcmult, Qcopp in *;
  cbn [this Q2Qc] in *;
  rewrite ?Qred_correct in *;
  repeat match goal with
  | |- context [this ?x] => generalize dependent (this x); intros
  end;
  nra.

Lemma Qc_pos_nonzero (d : Qc) : (0 < d)%Qc -> d <> 0%Qc.
Proof. intros Hd He. rewrite He in Hd. now apply Qclt_not_eq in Hd. Qed.

Lemma Qc_div_mul (x d : Qc) : d <> 0%Qc -> (x / d * d)%Qc = x.
Proof. intros Hd. field. exact Hd. Qed.

Lemma Qc_le_div (x d lo : Qc) :
  (0 < d)%Qc -> (lo * d <= x)%Qc -> (lo <= x / d)%Qc.
Proof.
  intros Hd H. apply (Qcmult_le_mono_pos_r _ _ d Hd).
  now rewrite Qc_div_mul by now apply Qc_pos_nonzero.
Qed.

Lemma Qc_div_le (x d hi : Qc) :
  (0 < d)%Qc -> (x <= hi * d)%Qc -> (x / d <= hi)%Qc.
Proof.
  intros Hd H. apply (Qcmult_le_mono_pos_r _ _ d Hd).
  now rewrite Qc_div_mul by now apply Qc_pos_nonzero.
Qed.

(** ** Exponential moving average of finite prices *)

Lemma decay_nonneg (com : Qc) : (0 <= com)%Qc -> (0 <= 1 - 1 / (1 + com))%Qc.
Proof.
  intros Hc.
  assert (Hd : (0 < 1 + com)%Qc)
    by (apply Qcplus_pos_nonneg; [reflexivity|assumption]).
  replace (1 - 1 / (1 + com))%Qc with (com * / (1 + com))%Qc
    by (field; now apply Qc_pos_nonzero).
  apply Qcmult_nonneg_nonneg; [assumption|].
  apply Qclt_le_weak. now apply Qcinv_pos.
Qed.

Lemma span_com_nonneg (n : Z) : 1 <= n -> (0 <= (Qc_of_Z n - 1) / 2)%Qc.
Proof.
  intros Hn. apply Qc_le_div; [reflexivity|]. rewrite Qcmult_0_l.
  pose proof (proj1 (Z2Qc_inj_le 1 n) Hn) as H1.
  rewrite Z2Qc_inj_1 in H1. qc_order.
Qed.

Lemma span_decay (n : Z) :
  1 <= n -> (1 - 1 / (1 + (Qc_of_Z n - 1) / 2))%Qc = ema_decay n.
Proof.
  intros Hn. unfold ema_decay.
  assert (H1 : (0 < Qc_of_Z n + 1)%Qc).
  { apply Qcplus_nonneg_pos; [apply Qc_of_Z_nonneg; lia|reflexivity]. }
  assert (H2 : (0 < 1 + (Qc_of_Z n - 1) / 2)%Qc).
  { apply Qcplus_pos_nonneg; [reflexivity|now apply span_com_nonneg]. }
  apply Qc_pos_nonzero in H1, H2.
  field. split; [exact H1|discriminate].
Qed.


(** On a column of finite prices the recurrence never meets a missing
    value; its running value keeps every property that averaging keeps. *)
Lemma ewm_values_fin_inv (P : Qc -> Prop) (com : Qc) (n : Z) (qs : list Qc)
    (i : nat) :
  (forall ow w c : Qc,
      (0 <= ow)%Qc -> P w -> P c -> P ((ow * w + 1 * c) / (ow + 1))%Qc) ->
  Forall P qs -> (0 <= com)%Qc -> (i < length qs)%nat ->
  exists w,
    P w /\
    ewm_values com n (Fin <$> qs) !! i =
    Some (if bool_decide (Z.max n 1 <= Z.of_nat (S i)) then Fin w else NaN).
Proof.
  intros Havg Hqs Hcom Hi. unfold ewm_values. rewrite prep_values_fin.
  destruct Hqs as [|q0 rest Hq0 Hrest]; [simpl in Hi; lia|].
  cbn [fmap list_fmap]. destruct i as [|j].
  - exists q0. split; [assumption|]. reflexivity.
  - destruct (ewm_loop_inv P Havg _ (decay_nonneg com Hcom) (Z.max n 1)
                rest Hrest (ewm_init (Fin q0)) j) as (w & Hw & Hj).
    + split; simpl; [discriminate|assumption].
    + simpl in Hi. lia.
    + exists w. split; [assumption|]. exact Hj.
Qed.

Lemma ema_fin_values (df : DataFrame) (n : Z) (prices : string)
    (qs : list Qc) :
  df_columns df !! LStr prices = Some (Fin <$> qs) -> 1 <= n ->
  exponential_moving_average df n prices =
  Ok (mkSeries (Some (LStr prices)) (df_index df)
        (ewm_values ((Qc_of_Z n - 1) / 2)%Qc n (Fin <$> qs))).
Proof. intros Hcol Hn. now rewrite (ema_ok _ _ _ _ Hcol Hn). Qed.



(** ** The recurrence as a geometric average *)

Lemma horner_den_nonneg (f : Qc) (h : list Qc) :
  (0 <= f)%Qc -> (0 <= horner_den f h)%Qc.
Proof.
  intros Hf. induction h as [|x h IH]; simpl; [discriminate|].
  apply Qcplus_nonneg_nonneg; [discriminate|].
  now apply Qcmult_nonneg_nonneg.
Qed.

Lemma horner_den_pos (f : Qc) (h : list Qc) :
  (0 <= f)%Qc -> h <> [] -> (0 < horner_den f h)%Qc.
Proof.
  intros Hf Hne. destruct h as [|x h]; [congruence|]. simpl.
  apply Qcplus_pos_nonneg; [reflexivity|].
  apply Qcmult_nonneg_nonneg; [assumption|now apply horner_den_nonneg].
Qed.

Lemma ewm_step_hist (f : Qc) (h : list Qc) (st : ewm_state) (c : Qc) :
  (0 <= f)%Qc -> hist_inv f h st ->
  hist_inv f (c :: h) (ewm_step f st (Some c)).
Proof.
  intros Hf (Hne & Hwt & Hw & Hn).
  pose proof (horner_den_pos f h Hf Hne) as HD.
  pose proof (horner_den_pos f (c :: h) Hf ltac:(discriminate)) as HD'.
  apply Qc_pos_nonzero in HD, HD'. simpl in HD'.
  unfold ewm_step. rewrite Hw, Hwt.
  split; [discriminate|]. split; [simpl; ring|].
  split; [|simpl; now rewrite Hn].
  simpl. f_equal.
  destruct (decide ((horner_num f h / horner_den f h)%Qc = c)) as [He|He].
  - rewrite <- He. field. split; [exact HD|exact HD'].
  - field. repeat split; first [exact HD | exact HD'].
Qed.

Lemma ewm_loop_hist (f : Qc) (minp : Z) (us : list Qc) :
  (0 <= f)%Qc ->
  forall (st : ewm_state) (h : list Qc) (j : nat),
    hist_inv f h st -> (j < length us)%nat ->
    ewm_loop f minp st (Fin <$> us) !! j =
    Some (if bool_decide (minp <= Z.of_nat (length h + S j))
          then Fin (horner_num f (reverse (take (S j) us) ++ h)
                    / horner_den f (reverse (take (S j) us) ++ h))%Qc
          else NaN).
Proof.
  intros Hf. induction us as [|c us IH]; intros st h j Hst Hj;
    [simpl in Hj; lia|].
  pose proof (ewm_step_hist f h st c Hf Hst) as Hst'.
  cbn [fmap list_fmap ewm_loop observation].
  destruct j as [|j].
  - cbn [lookup list_lookup]. unfold ewm_out.
    destruct Hst' as (_ & _ & Hw & Hn). rewrite Hw, Hn.
    simpl length. simpl of_observation.
    now replace (length h + 1)%nat with (S (length h)) by lia.
  - cbn [lookup list_lookup].
    specialize (IH _ _ j Hst' ltac:(simpl in Hj; lia)).
    simpl length in IH.
    replace (length h + S (S j))%nat with (S (length h) + S j)%nat by lia.
    replace (reverse (take (S (S j)) (c :: us)) ++ h)
      with (reverse (take (S j) us) ++ c :: h).
    + exact IH.
    + cbn [take]. rewrite reverse_cons, <- app_assoc. reflexivity.
Qed.

Lemma horner_num_seq (f : Qc) (g : nat -> Qc) (a m : nat) :
  (f ^ a * horner_num f (g <$> seq a m))%Qc =
  Qc_sum ((fun k => f ^ k * g k)%Qc <$> seq a m).
Proof.
  revert a. induction m as [|m IH]; intros a; simpl; [ring|].
  change (foldr Qcplus 0%Qc ?l) with (Qc_sum l).
  rewrite <- IH. simpl.
  change (list_fmap nat Qc g ?l) with (g <$> l). ring.
Qed.

Lemma horner_den_seq (f : Qc) (g : nat -> Qc) (a m : nat) :
  (f ^ a * horner_den f (g <$> seq a m))%Qc =
  Qc_sum ((fun k => f ^ k)%Qc <$> seq a m).
Proof.
  revert a. induction m as [|m IH]; intros a; simpl; [ring|].
  change (foldr Qcplus 0%Qc ?l) with (Qc_sum l).
  rewrite <- IH. simpl.
  change (list_fmap nat Qc g ?l) with (g <$> l). ring.
Qed.

Lemma horner_geometric (f : Qc) (qs : list Qc) (i : nat) :
  (horner_num f (recent qs i <$> seq 0 (S i))
   / horner_den f (recent qs i <$> seq 0 (S i)))%Qc
  = geometric_average f qs i.
Proof.
  unfold geometric_average.
  rewrite <- horner_num_seq, <- (horner_den_seq f (recent qs i)).
  change (f ^ 0)%Qc with 1%Qc. now rewrite !Qcmult_1_l.
Qed.

Lemma ewm_values_fin_closed (com : Qc) (n : Z) (qs : list Qc) (i : nat) :
  (0 <= com)%Qc -> (i < length qs)%nat ->
  ewm_values com n (Fin <$> qs) !! i =
  Some (if bool_decide (Z.max n 1 <= Z.of_nat (S i))
        then Fin (geometric_average (1 - 1 / (1 + com)) qs i) else NaN).
Proof.
  intros Hcom Hi. unfold ewm_values. rewrite prep_values_fin.
  pose proof (decay_nonneg com Hcom) as Hf.
  set (f := (1 - 1 / (1 + com))%Qc) in *.
  rewrite <- horner_geometric.
  rewrite <- (reverse_window qs (S i) i) by lia.
  replace (S i - S i)%nat with 0%nat by lia. rewrite drop_0.
  destruct qs as [|q0 rest]; [simpl in Hi; lia|].
  cbn [fmap list_fmap]. destruct i as [|j].
  - cbn [lookup list_lookup]. unfold ewm_out, ewm_init. simpl.
    replace ((q0 + f * 0) / (1 + f * 0))%Qc with q0; [reflexivity|].
    field. discriminate.
  - cbn [lookup list_lookup].
    pose proof (ewm_loop_hist f (Z.max n 1) rest Hf (ewm_init (Fin q0))
                  [q0] j) as Hloop.
    simpl length in Hloop.
    replace (1 + S j)%nat with (S (S j)) in Hloop by lia.
    cbn [take]. rewrite reverse_cons. apply Hloop.
    + split; [discriminate|]. simpl.
      split; [ring|]. split; [|reflexivity].
      f_equal. field. discriminate.
    + simpl in Hi. lia.
Qed.

(** X1. On a column of finite prices and for a span [n >= 1], the
    exponential moving average at every position from [n - 1] on is the
    average of all prices so far with weight [(1 - alpha) ^ k] on the price
    [k] places back, [alpha = 2 / (n + 1)]. *)
Theorem exponential_moving_average_geometric
    (df : DataFrame) (n : Z) (prices : string) (qs : list Qc) :
  df_columns df !! LStr prices = Some (Fin <$> qs) ->
  1 <= n ->
  exists out : Series,
    exponential_moving_average df n prices = Ok out /\
    forall i : nat, (i < length qs)%nat -> n - 1 <= Z.of_nat i ->
      s_values out !! i = Some (Fin (geometric_average (ema_decay n) qs i)).
Proof.
  intros Hcol Hn.
  eexists. split; [apply (ema_fin_values _ _ _ _ Hcol Hn)|]. simpl.
  intros i Hi Hpos.
  rewrite ewm_values_fin_closed by (try apply span_com_nonneg; assumption).
  rewrite bool_decide_eq_true_2 by lia.
  now rewrite span_decay.
Qed.

Lemma exponential_moving_average_geometric_witness :
  exists out : Series,
    exponential_moving_average one_to_ten 3 "Close" = Ok out /\
    s_values out !! 2%nat =
    Some (Fin (geometric_average (ema_decay 3) (Qc_of_Z <$> seqZ 1 10) 2)).
Proof.
  destruct (exponential_moving_average_geometric one_to_ten 3 "Close"%string
              (Qc_of_Z <$> seqZ 1 10)) as (out & Hrun & Hval).
  - vm_compute. reflexivity.
  - lia.
  - exists out. split; [exact Hrun|].
    apply (Hval 2%nat); [vm_compute; lia | lia].
Defined.

(** ** When the functions return *)

Lemma getitem_returns (df : DataFrame) (key : label) :
  (exists s, getitem df key = Ok s) <-> is_Some (df_columns df !! key).
Proof.
  unfold getitem. destruct (df_columns df !! key) as [vs|]; split.
  - eauto.
  - eauto.
  - intros [s Hs]. discriminate.
  - intros [vs Hvs]. discriminate.
Qed.

Lemma getitem_missing (df : DataFrame) (key : label) :
  df_columns df !! key = None -> getitem df key = Err (KeyError key).
Proof. intros H. unfold getitem. now rewrite H. Qed.

Lemma rolling_returns (s : Series) (n : Z) :
  (exists r, rolling s n n = Ok r) <-> 0 <= n.
Proof.
  split.
  - intros [r Hr]. unfold rolling in Hr.
    destruct (Z.ltb_spec n 0); [discriminate|assumption].
  - intros Hn. rewrite rolling_ok by assumption. eauto.
Qed.


Lemma ewm_com_returns (s : Series) (c m : Z) :
  (exists e, ewm_com s c m = Ok e) <-> 0 <= c.
Proof.
  split.
  - intros [e He]. now apply ewm_com_inv in He as [Hn _].
  - intros Hn. unfold ewm_com. destruct (Z.ltb_spec c 0); [lia|eauto].
Qed.











(** X6. The Bollinger bands are returned exactly when the table has the
    columns 'High', 'Low' and 'Close' and the window is not negative; the
    lookup error names the first of the three columns, in that order, that
    is missing. *)
Theorem bollinger_bands_returns
    (sqrt : Qc -> Qc) (df : DataFrame) (n : Z) (m : num) :
  ((exists r, bollinger_bands sqrt df n m = Ok r) <->
   is_Some (df_columns df !! LStr "High") /\
   is_Some (df_columns df !! LStr "Low") /\
   is_Some (df_columns df !! LStr "Close") /\ 0 <= n) /\
  (df_columns df !! LStr "High" = None ->
   bollinger_bands sqrt df n m = Err (KeyError (LStr "High"))) /\
  (is_Some (df_columns df !! LStr "High") ->
   df_columns df !! LStr "Low" = None ->
   bollinger_bands sqrt df n m = Err (KeyError (LStr "Low"))) /\
  (is_Some (df_columns df !! LStr "High") ->
   is_Some (df_columns df !! LStr "Low") ->
   df_columns df !! LStr "Close" = None ->
   bollinger_bands sqrt df n m = Err (KeyError (LStr "Close"))).
Proof.
  unfold bollinger_bands. split; [split|].
  - intros [r H]. apply bind_ok in H as (h & Hh & H).
    apply bind_ok in H as (l & Hl & H). apply bind_ok in H as (c & Hc & H).
    apply bind_ok in H as (r1 & Hr1 & _).
    repeat split; try (apply getitem_returns; eauto).
    eapply rolling_returns. eauto.
  - intros ([h Hh] & [l Hl] & [c Hc] & Hn).
    rewrite (getitem_ok _ _ _ Hh), (getitem_ok _ _ _ Hl),
      (getitem_ok _ _ _ Hc). simpl.
    rewrite rolling_ok by assumption. simpl. eauto.
  - split; [|split].
    + intros Hh. now rewrite (getitem_missing _ _ Hh).
    + intros [h Hh] Hl.
      now rewrite (getitem_ok _ _ _ Hh), (getitem_missing _ _ Hl).
    + intros [h Hh] [l Hl] Hc.
      now rewrite (getitem_ok _ _ _ Hh), (getitem_ok _ _ _ Hl),
        (getitem_missing _ _ Hc).
Qed.

Lemma bollinger_bands_returns_witness :
  (exists r, bollinger_bands root_of_square high_low_close 20 (of_Z 2) = Ok r)
  /\
  bollinger_bands root_of_square one_to_ten 20 (of_Z 2) =
  Err (KeyError (LStr "High")).
Proof.
  split.
  - apply (bollinger_bands_returns root_of_square high_low_close 20 (of_Z 2)).
    repeat split; try (vm_compute; eauto; fail). lia.
  - apply (bollinger_bands_returns root_of_square one_to_ten 20 (of_Z 2)).
    vm_compute. reflexivity.
Defined.

(** ** Warm-up positions *)

Lemma window_length_le_pos (w : Z) (xs : list num) (i : nat) :
  (length (window_at w xs i) <= S i)%nat.
Proof. unfold window_at. rewrite length_take. lia. Qed.

(** Before position [n - 1] a window cannot hold [n] observations. *)
Lemma rolling_values_early (n : Z) agg (xs : list num) (i : nat) :
  (i < length xs)%nat -> Z.of_nat i < n - 1 ->
  rolling_values n n agg xs !! i = Some NaN.
Proof.
  intros Hi Hlt. rewrite rolling_values_lookup by assumption. cbv zeta.
  rewrite bool_decide_eq_false_2; [reflexivity|].
  pose proof (observations_length_le (window_at n (prep_values xs) i)).
  pose proof (window_length_le_pos n (prep_values xs) i). lia.
Qed.

Lemma ewm_step_nobs (f : Qc) (st : ewm_state) (cur : option Qc) :
  (nobs (ewm_step f st cur) <= S (nobs st))%nat.
Proof.
  unfold ewm_step. destruct (weighted st), cur; simpl; lia.
Qed.

Lemma ewm_loop_early (f : Qc) (minp : Z) (xs : list num) :
  forall (st : ewm_state) (j : nat),
    (j < length xs)%nat -> Z.of_nat (nobs st + S j) < minp ->
    ewm_loop f minp st xs !! j = Some NaN.
Proof.
  induction xs as [|x xs IH]; intros st j Hj Hlt; [simpl in Hj; lia|].
  pose proof (ewm_step_nobs f st (observation x)) as Hn.
  cbn [ewm_loop]. destruct j as [|j]; cbn [lookup list_lookup].
  - unfold ewm_out. now rewrite bool_decide_eq_false_2 by lia.
  - apply IH; [simpl in Hj; lia|lia].
Qed.

Lemma ewm_values_early (com : Qc) (n : Z) (xs : list num) (i : nat) :
  (i < length xs)%nat -> Z.of_nat i < n - 1 ->
  ewm_values com n xs !! i = Some NaN.
Proof.
  intros Hi Hlt. unfold ewm_values.
  assert (Hlen : length (prep_values xs) = length xs)
    by (unfold prep_values; apply length_fmap).
  destruct (prep_values xs) as [|x tl]; [simpl in Hlen; lia|].
  destruct i as [|j]; cbn [lookup list_lookup].
  - unfold ewm_out, ewm_init. simpl nobs.
    rewrite bool_decide_eq_false_2; [reflexivity|].
    destruct (observation x); simpl; lia.
  - apply ewm_loop_early; [simpl in Hlen; lia|].
    unfold ewm_init. simpl nobs. destruct (observation x); simpl; lia.
Qed.

(** After a missing first entry the count of observations lags one more. *)
Lemma ewm_values_gap_early (com : Qc) (n : Z) (xs : list num) (i : nat) :
  (i < S (length xs))%nat -> Z.of_nat i < n ->
  ewm_values com n (NaN :: xs) !! i = Some NaN.
Proof.
  intros Hi Hlt. unfold ewm_values. cbn [prep_values fmap list_fmap prep_value].
  destruct i as [|j]; cbn [lookup list_lookup].
  - unfold ewm_out, ewm_init. simpl.
    now rewrite bool_decide_eq_false_2 by lia.
  - apply ewm_loop_early.
    + change (list_fmap num num prep_value xs) with (prep_values xs).
      unfold prep_values. rewrite length_fmap. lia.
    + simpl. lia.
Qed.

Lemma diff_values_head (xs : list num) :
  xs <> [] -> exists tl, diff_values xs = NaN :: tl /\ S (length tl) = length xs.
Proof.
  destruct xs as [|x xs]; [congruence|]. intros _. simpl.
  eexists. split; [reflexivity|]. rewrite length_zip_with. simpl. lia.
Qed.

Lemma rsi_early (df : DataFrame) (n : Z) (prices : string) (xs : list num)
    (out : Series) :
  df_columns df !! LStr prices = Some xs ->
  relative_strength_index df n prices = Ok out ->
  forall i : nat, (i < length xs)%nat -> Z.of_nat i < n ->
    s_values out !! i = Some NaN.
Proof.
  intros Hcol Hrun i Hi Hlt. unfold relative_strength_index in Hrun.
  rewrite (getitem_ok _ _ _ Hcol) in Hrun. simpl in Hrun.
  inv_calls. simpl.
  destruct (diff_values_head xs) as (tl & Hd & Hlen);
    [intros ->; simpl in Hi; lia|].
  rewrite Hd. cbn [fmap list_fmap clip_lower0 Num.neg].
  rewrite list_lookup_fmap.
  rewrite (zip_with_lookup_both Num.div _ _ i NaN NaN); [reflexivity| |];
    apply ewm_values_gap_early; rewrite ?length_fmap; lia.
Qed.

(** X7. Whatever the values of the column (missing and infinite ones
    included), the three moving averages are undefined at every position
    before [n - 1] and the relative strength index at every position before
    [n]; a window longer than the series thus gives a series that is
    undefined throughout. *)
Theorem warm_up_is_undefined
    (df : DataFrame) (n : Z) (prices : string) (xs : list num) (out : Series) :
  df_columns df !! LStr prices = Some xs ->
  (simple_moving_average df n prices = Ok out \/
   weighted_moving_average df n prices = Ok out \/
   exponential_moving_average df n prices = Ok out ->
   forall i : nat, (i < length xs)%nat -> Z.of_nat i < n - 1 ->
     s_values out !! i = Some NaN) /\
  (relative_strength_index df n prices = Ok out ->
   forall i : nat, (i < length xs)%nat -> Z.of_nat i < n ->
     s_values out !! i = Some NaN).
Proof.
  intros Hcol. split.
  - intros Hrun i Hi Hlt.
    unfold simple_moving_average, weighted_moving_average,
      exponential_moving_average in Hrun.
    rewrite (getitem_ok _ _ _ Hcol) in Hrun. simpl in Hrun.
    destruct Hrun as [H | [H | H]]; inv_calls; simpl.
    + now apply rolling_values_early.
    + now apply rolling_values_early.
    + now apply ewm_values_early.
  - intros Hrun. exact (rsi_early df n prices xs out Hcol Hrun).
Qed.

Lemma warm_up_is_undefined_witness :
  exists out : Series,
    weighted_moving_average one_to_ten 11 "Close" = Ok out /\
    s_values out !! 9%nat = Some NaN.
Proof.
  destruct (weighted_moving_average one_to_ten 11 "Close") as [out|e] eqn:Hrun.
  - exists out. split; [reflexivity|].
    destruct (warm_up_is_undefined one_to_ten 11 "Close"
                (prices_of (seqZ 1 10)) out) as [Hma _].
    + vm_compute. reflexivity.
    + apply Hma; [auto | vm_compute; lia | lia].
  - vm_compute in Hrun. discriminate Hrun.
Defined.

(** ** A window of one observation *)

Lemma Qc_of_nat_1 : Qc_of_nat 1 = 1%Qc.
Proof. exact Z2Qc_inj_1. Qed.

Lemma take_one_drop (qs : list Qc) (i : nat) (x : Qc) :
  qs !! i = Some x -> take 1 (drop i qs) = [x].
Proof. intros Hx. now rewrite (drop_S _ _ _ Hx). Qed.

Lemma recent_head (qs : list Qc) (i : nat) (x : Qc) :
  qs !! i = Some x -> recent qs i 0 = x.
Proof.
  intros Hx. unfold recent. rewrite Nat.sub_0_r, nth_lookup. now rewrite Hx.
Qed.

Lemma geometric_average_no_memory (qs : list Qc) (i : nat) (x : Qc) :
  qs !! i = Some x -> geometric_average 0 qs i = x.
Proof.
  intros Hx. rewrite <- horner_geometric.
  cbn [seq fmap list_fmap horner_num horner_den].
  rewrite (recent_head _ _ _ Hx). field. discriminate.
Qed.

(** X8. With a window (or span) of 1 the simple, the weighted and the
    exponential moving average of a column of finite prices are the column
    itself. *)
Theorem window_one_is_identity
    (df : DataFrame) (prices : string) (qs : list Qc) :
  df_columns df !! LStr prices = Some (Fin <$> qs) ->
  let column := mkSeries (Some (LStr prices)) (df_index df) (Fin <$> qs) in
  simple_moving_average df 1 prices = Ok column /\
  weighted_moving_average df 1 prices = Ok column /\
  exponential_moving_average df 1 prices = Ok column.
Proof.
  intros Hcol column. unfold column.
  unfold simple_moving_average, weighted_moving_average.
  rewrite (ema_fin_values _ _ _ _ Hcol) by lia.
  rewrite (getitem_ok _ _ _ Hcol). simpl.
  unfold rolling_mean, rolling_apply, rolling_agg. simpl.
  repeat split; do 2 f_equal; apply list_eq; intros i;
    (destruct (decide (i < length qs)%nat) as [Hi|Hi];
     [|rewrite !lookup_ge_None_2;
       rewrite ?rolling_values_length, ?ewm_values_length, ?length_fmap;
       [reflexivity|lia|lia]]);
    destruct (lookup_lt_is_Some_2 qs i Hi) as [x Hx];
    rewrite list_lookup_fmap, Hx; simpl.
  - rewrite rolling_fin_full by (try assumption; lia).
    change (Z.to_nat 1) with 1%nat.
    replace (S i - 1)%nat with i by lia.
    rewrite (take_one_drop _ _ _ Hx). f_equal.
    unfold agg_mean. simpl. f_equal.
    change (Qc_of_Z (Z.of_nat 1)) with (Qc_of_nat 1).
    rewrite Qc_of_nat_1. field. discriminate.
  - rewrite rolling_fin_full by (try assumption; lia).
    change (Z.to_nat 1) with 1%nat.
    replace (S i - 1)%nat with i by lia.
    rewrite (take_one_drop _ _ _ Hx). f_equal.
    rewrite (wma_kernel_fin 1 [x]) by (reflexivity || lia).
    f_equal. simpl. rewrite Z2Qc_inj_1, Qc_of_nat_1. field.
    split; discriminate.
  - rewrite ewm_values_fin_closed by (try assumption; discriminate).
    rewrite bool_decide_eq_true_2 by lia. do 2 f_equal.
    replace (1 - 1 / (1 + (Qc_of_Z 1 - 1) / 2))%Qc with 0%Qc
      by (rewrite Z2Qc_inj_1; field; discriminate).
    now apply geometric_average_no_memory.
Qed.

Lemma window_one_is_identity_witness :
  weighted_moving_average zigzag 1 "Close" =
  Ok (mkSeries (Some (LStr "Close")) (df_index zigzag)
        (Fin <$> (Qc_of_Z <$> [3; 1; 4; 1; 5]))).
Proof.
  apply (window_one_is_identity zigzag "Close" (Qc_of_Z <$> [3; 1; 4; 1; 5])).
  vm_compute. reflexivity.
Defined.

(** ** Averages between the extremes *)


Lemma Qc_of_nat_pos (m : nat) : (0 < m)%nat -> (0 < Qc_of_nat m)%Qc.
Proof.
  intros Hm. unfold Qc_of_nat.
  pose proof (proj1 (Z2Qc_inj_lt 0 (Z.of_nat m)) ltac:(lia)) as H.
  exact H.
Qed.

Lemma Qc_sum_bounds (lo hi : Qc) (l : list Qc) :
  Forall (fun q => (lo <= q)%Qc /\ (q <= hi)%Qc) l ->
  (lo * Qc_of_nat (length l) <= Qc_sum l)%Qc /\
  (Qc_sum l <= hi * Qc_of_nat (length l))%Qc.
Proof.
  induction 1 as [|q l [Hlq Hqh] _ [IHl IHh]]; simpl.
  - rewrite Qc_of_nat_0, !Qcmult_0_r. split; apply Qcle_refl.
  - change (foldr Qcplus 0%Qc l) with (Qc_sum l).
    change (Qc_of_nat (S (length l))) with (Qc_of_nat (S (length l))).
    rewrite Qc_of_nat_S.
    generalize dependent (Qc_sum l). generalize (Qc_of_nat (length l)).
    intros len s IHl IHh. split; qc_order.
Qed.

Lemma mean_bounds (lo hi : Qc) (l : list Qc) :
  l <> [] ->
  Forall (fun q => (lo <= q)%Qc /\ (q <= hi)%Qc) l ->
  (lo <= Qc_sum l / Qc_of_nat (length l))%Qc /\
  (Qc_sum l / Qc_of_nat (length l) <= hi)%Qc.
Proof.
  intros Hne Hb. destruct (Qc_sum_bounds lo hi l Hb) as [Hl Hh].
  assert (Hpos : (0 < Qc_of_nat (length l))%Qc).
  { apply Qc_of_nat_pos. destruct l; [congruence|simpl; lia]. }
  split; [now apply Qc_le_div|now apply Qc_div_le].
Qed.

Lemma extrema_bound_all (q0 : Qc) (qs : list Qc) :
  Forall (fun q => (foldr Qc_min q0 qs <= q)%Qc /\
                   (q <= foldr Qc_max q0 qs)%Qc) (q0 :: qs).
Proof.
  apply Forall_forall. intros q Hq.
  split; [now apply foldr_min_le|now apply foldr_max_ge].
Qed.

(** X9. Wherever the simple moving average is defined, the rolling minimum
    and maximum of the same column over the same window are defined too,
    and the average lies between them. *)
Theorem simple_moving_average_between_extremes
    (df : DataFrame) (n : Z) (prices : string) (sma : Series) :
  simple_moving_average df n prices = Ok sma ->
  exists hh ll : Series,
    highest_high df n prices = Ok hh /\
    lowest_low df n prices = Ok ll /\
    forall (i : nat) (m : Qc),
      s_values sma !! i = Some (Fin m) ->
      exists l h : Qc,
        s_values ll !! i = Some (Fin l) /\
        s_values hh !! i = Some (Fin h) /\
        (l <= m)%Qc /\ (m <= h)%Qc.
Proof.
  intros Hrun. unfold simple_moving_average in Hrun.
  apply bind_ok in Hrun as (s & Hs & Hrun).
  apply bind_ok in Hrun as (r & Hr & Hrun). injection Hrun as <-.
  unfold highest_high, lowest_low. rewrite Hs. simpl. rewrite Hr. simpl.
  do 2 eexists. do 2 (split; [reflexivity|]).
  apply rolling_inv in Hr as ->. simpl.
  intros i m Hm.
  assert (Hi : (i < length (s_values s))%nat).
  { apply lookup_lt_Some in Hm. now rewrite rolling_values_length in Hm. }
  pose proof (rolling_values_lookup n n agg_min _ i Hi) as El.
  pose proof (rolling_values_lookup n n agg_max _ i Hi) as Eh.
  rewrite rolling_values_lookup in Hm by assumption. cbv zeta in *.
  destruct (bool_decide _); [|discriminate].
  unfold agg_mean in Hm. unfold agg_min in El. unfold agg_max in Eh.
  destruct (observations _) as [|q0 qs]; [discriminate|].
  injection Hm as <-.
  do 2 eexists. split; [exact El|]. split; [exact Eh|].
  apply (mean_bounds _ _ (q0 :: qs)); [discriminate|apply extrema_bound_all].
Qed.

Lemma simple_moving_average_between_extremes_witness :
  exists (sma ll hh : Series) (l m h : Qc),
    simple_moving_average zigzag 3 "Close" = Ok sma /\
    lowest_low zigzag 3 "Close" = Ok ll /\
    highest_high zigzag 3 "Close" = Ok hh /\
    s_values ll !! 3%nat = Some (Fin l) /\
    s_values sma !! 3%nat = Some (Fin m) /\
    s_values hh !! 3%nat = Some (Fin h) /\
    (l <= m)%Qc /\ (m <= h)%Qc.
Proof.
  destruct (simple_moving_average zigzag 3 "Close") as [sma|e] eqn:Hrun.
  - destruct (simple_moving_average_between_extremes zigzag 3 "Close" sma Hrun)
      as (hh & ll & Hhh & Hll & Hb).
    vm_compute in Hrun. injection Hrun as <-.
    destruct (Hb 3%nat _ eq_refl) as (l & h & Hl & Hh & Hlm & Hmh).
    do 6 eexists. split; [reflexivity|]. eauto 10.
  - vm_compute in Hrun. discriminate Hrun.
Defined.




(** ** Range of the relative strength index *)

Lemma gain_nonneg (d : Qc) : (0 <= gain d)%Qc.
Proof.
  unfold gain, sgn. destruct (d ?= 0)%Qc eqn:Hc.
  - apply Qceq_alt in Hc. rewrite Hc. apply Qcle_refl.
  - apply Qcle_refl.
  - apply Qclt_le_weak. now apply Qcgt_alt.
Qed.

Lemma gain_of_positive (d : Qc) : (0 < d)%Qc -> gain d = d.
Proof. intros Hd. unfold gain, sgn. apply Qcgt_alt in Hd. now rewrite Hd. Qed.

Lemma gain_of_nonpositive (d : Qc) : (d <= 0)%Qc -> gain d = 0%Qc.
Proof.
  intros Hd. unfold gain, sgn. destruct (d ?= 0)%Qc eqn:Hc.
  - now apply Qceq_alt in Hc.
  - reflexivity.
  - apply Qcgt_alt in Hc. now apply Qcle_not_lt in Hd.
Qed.

Lemma clip_gain (ds : list Qc) :
  clip_lower0 <$> (Fin <$> ds) = Fin <$> (gain <$> ds).
Proof.
  induction ds as [|d ds IH]; [reflexivity|]. cbn [fmap list_fmap].
  f_equal; [|exact IH]. unfold gain. simpl. now destruct (sgn d).
Qed.

Lemma clip_loss (ds : list Qc) :
  clip_lower0 <$> (Num.neg <$> (Fin <$> ds)) = Fin <$> (loss <$> ds).
Proof.
  induction ds as [|d ds IH]; [reflexivity|]. cbn [fmap list_fmap].
  f_equal; [|exact IH]. unfold loss, gain. simpl. now destruct (sgn (- d)).
Qed.

Lemma diff_values_fin (qs : list Qc) :
  qs <> [] -> diff_values (Fin <$> qs) = NaN :: (Fin <$> differences qs).
Proof.
  destruct qs as [|q0 rest]; [congruence|]. intros _.
  unfold differences. rewrite <- zip_sub_fin. reflexivity.
Qed.

Lemma differences_length (qs : list Qc) :
  S (length (differences qs)) = length qs \/ qs = [].
Proof.
  destruct qs as [|q0 rest]; [now right|]. left.
  simpl. rewrite length_zip_with. simpl. lia.
Qed.

(** The value of the index at a position from [n] on, in terms of two
    running values of the smoothed gains and losses. *)
Lemma rsi_fin_position (Pg Pl : Qc -> Prop) (df : DataFrame) (n : Z)
    (prices : string) (qs : list Qc) (i : nat) :
  (forall ow w c : Qc,
      (0 <= ow)%Qc -> Pg w -> Pg c -> Pg ((ow * w + 1 * c) / (ow + 1))%Qc) ->
  (forall ow w c : Qc,
      (0 <= ow)%Qc -> Pl w -> Pl c -> Pl ((ow * w + 1 * c) / (ow + 1))%Qc) ->
  df_columns df !! LStr prices = Some (Fin <$> qs) -> 1 <= n ->
  Forall Pg (gain <$> differences qs) ->
  Forall Pl (loss <$> differences qs) ->
  n <= Z.of_nat i -> (i < length qs)%nat ->
  exists (rsi : Series) (u v : Qc),
    relative_strength_index df n prices = Ok rsi /\
    Pg u /\ Pl v /\
    s_values rsi !! i = Some (rsi_of_rs (Num.div (Fin u) (Fin v))).
Proof.
  intros Hg Hl Hcol Hn Hgs Hls Hi Hlen.
  destruct (rsi_stages df n prices _ Hcol Hn) as (_ & _ & _ & Hrsi).
  assert (Hne : qs <> []) by (intros ->; simpl in Hlen; lia).
  destruct (differences_length qs) as [Hdl|]; [|congruence].
  destruct (ewm_values_after_gap Pg n (gain <$> differences qs) i)
    as (u & Hu & Hgi); try assumption; [rewrite length_fmap; lia|].
  destruct (ewm_values_after_gap Pl n (loss <$> differences qs) i)
    as (v & Hv & Hli); try assumption; [rewrite length_fmap; lia|].
  eexists _, u, v. split; [exact Hrsi|]. do 2 (split; [assumption|]).
  simpl. rewrite (diff_values_fin qs Hne).
  cbn [fmap list_fmap clip_lower0 Num.neg].
  change (list_fmap num num ?f ?l) with (f <$> l).
  rewrite clip_gain, clip_loss.
  rewrite list_lookup_fmap.
  now rewrite (zip_with_lookup_both Num.div _ _ i (Fin u) (Fin v)).
Qed.

Lemma average_nonneg (ow w c : Qc) :
  (0 <= ow)%Qc -> (0 <= w)%Qc -> (0 <= c)%Qc ->
  (0 <= (ow * w + 1 * c) / (ow + 1))%Qc.
Proof.
  intros How Hw Hc. apply Qc_le_div.
  - apply Qcplus_nonneg_pos; [assumption|reflexivity].
  - qc_order.
Qed.

Lemma rsi_value_range (u v : Qc) :
  (0 <= u)%Qc -> (0 <= v)%Qc ->
  rsi_of_rs (Num.div (Fin u) (Fin v)) = NaN \/
  exists x : Qc,
    rsi_of_rs (Num.div (Fin u) (Fin v)) = Fin x /\
    (0 <= x)%Qc /\ (x <= Qc_of_Z 100)%Qc.
Proof.
  intros Hu Hv. cbn [Num.div]. unfold sgn.
  destruct (v ?= 0)%Qc eqn:Hcv.
  - destruct (u ?= 0)%Qc eqn:Hcu; cbn [inf_of].
    + now left.
    + apply Qclt_alt in Hcu. now apply Qcle_not_lt in Hu.
    + right. exists (Qc_of_Z 100). rewrite rsi_of_infinite_rs.
      split; [reflexivity|]. split; [discriminate|apply Qcle_refl].
  - apply Qclt_alt in Hcv. now apply Qcle_not_lt in Hv.
  - apply Qcgt_alt in Hcv.
    assert (Hr : (0 <= u / v)%Qc)
      by (apply Qc_le_div; [assumption|now rewrite Qcmult_0_l]).
    assert (Hd : (0 < 1 + u / v)%Qc)
      by (apply Qcplus_pos_nonneg; [reflexivity|assumption]).
    right. unfold rsi_of_rs, of_Z. cbn [Num.add].
    rewrite Z2Qc_inj_1, div_fin by now apply Qc_pos_nonzero.
    eexists. split; [reflexivity|].
    assert (Ht : (0 <= Qc_of_Z 100 / (1 + u / v))%Qc /\
                 (Qc_of_Z 100 / (1 + u / v) <= Qc_of_Z 100)%Qc).
    { pose proof Qc_100_pos.
      split; [apply Qc_le_div|apply Qc_div_le]; try assumption.
      - rewrite Qcmult_0_l. now apply Qclt_le_weak.
      - generalize dependent (u / v)%Qc. intros r Hr Hd. qc_order. }
    destruct Ht as [Ht0 Ht1].
    generalize dependent (Qc_of_Z 100 / (1 + u / v))%Qc.
    intros t Ht0 Ht1. split; qc_order.
Qed.

(** X11. On a column of finite prices and for [n >= 1] the relative
    strength index is undefined before position [n]; from there on it is
    either undefined (no rise and no fall so far) or a finite value between
    0 and 100. *)
Theorem relative_strength_index_range
    (df : DataFrame) (n : Z) (prices : string) (qs : list Qc) :
  df_columns df !! LStr prices = Some (Fin <$> qs) ->
  1 <= n ->
  exists rsi : Series,
    relative_strength_index df n prices = Ok rsi /\
    forall i : nat, (i < length qs)%nat ->
      (Z.of_nat i < n -> s_values rsi !! i = Some NaN) /\
      (n <= Z.of_nat i ->
       s_values rsi !! i = Some NaN \/
       exists x : Qc,
         s_values rsi !! i = Some (Fin x) /\
         (0 <= x)%Qc /\ (x <= Qc_of_Z 100)%Qc).
Proof.
  intros Hcol Hn.
  destruct (rsi_stages df n prices _ Hcol Hn) as (_ & _ & _ & Hrsi).
  eexists. split; [exact Hrsi|]. intros i Hi. split.
  - intros Hlt. apply (rsi_early df n prices (Fin <$> qs) _ Hcol Hrsi);
      [now rewrite length_fmap|assumption].
  - intros Hge.
    destruct (rsi_fin_position (fun w => (0 <= w)%Qc) (fun w => (0 <= w)%Qc)
                df n prices qs i) as (rsi & u & v & Hrun & Hu & Hv & Hval);
      try assumption; try exact average_nonneg.
    + apply Forall_fmap, Forall_forall. intros d _. apply gain_nonneg.
    + apply Forall_fmap, Forall_forall. intros d _. apply gain_nonneg.
    + rewrite Hrsi in Hrun. injection Hrun as <-. rewrite Hval.
      destruct (rsi_value_range u v Hu Hv) as [-> | (x & -> & Hx)]; eauto.
Qed.

Lemma relative_strength_index_range_witness :
  exists (rsi : Series) (x : Qc),
    relative_strength_index zigzag 2 "Close" = Ok rsi /\
    s_values rsi !! 3%nat = Some (Fin x) /\
    (0 <= x)%Qc /\ (x <= Qc_of_Z 100)%Qc.
Proof.
  destruct (relative_strength_index_range zigzag 2 "Close"%string
              (Qc_of_Z <$> [3; 1; 4; 1; 5])) as (rsi & Hrun & Hval).
  - vm_compute. reflexivity.
  - lia.
  - destruct (Hval 3%nat) as [_ Hdef]; [vm_compute; lia|].
    destruct Hdef as [Hnan | (x & Hx & Hb)]; [lia| |].
    + vm_compute in Hrun. injection Hrun as <-.
      vm_compute in Hnan. discriminate Hnan.
    + exists rsi, x. auto.
Defined.

(** ** Falling and flat prices *)

Lemma decreasing_differences (qs : list Qc) :
  strictly_decreasing qs ->
  Forall (fun d => (d < 0)%Qc) (differences qs).
Proof.
  intros Hdec. destruct qs as [|q0 rest]; [constructor|].
  apply Forall_lookup. intros i d Hd. unfold differences in Hd.
  apply lookup_zip_with_Some in Hd as (x & y & -> & Hx & Hy).
  pose proof (Hdec i y x Hy Hx) as Hlt.
  apply Qclt_minus_iff in Hlt. apply Qclt_minus_iff.
  replace (0 + - (x + - y))%Qc with (y + - x)%Qc by ring. exact Hlt.
Qed.

Lemma rsi_of_zero_rs (v : Qc) :
  (0 < v)%Qc -> rsi_of_rs (Num.div (Fin 0%Qc) (Fin v)) = of_Z 0.
Proof.
  intros Hv. rewrite div_fin by now apply Qc_pos_nonzero.
  replace (0 / v)%Qc with 0%Qc by (unfold Qcdiv; ring).
  unfold rsi_of_rs, of_Z. cbn [Num.add].
  rewrite Z2Qc_inj_1, Z2Qc_inj_0.
  replace (1 + 0)%Qc with 1%Qc by ring.
  rewrite div_fin by discriminate.
  cbn [Num.sub Num.neg Num.add]. apply (f_equal Fin). field. discriminate.
Qed.

Lemma loss_of_negative (d : Qc) : (d < 0)%Qc -> (0 < loss d)%Qc.
Proof.
  intros Hd. apply Qclt_minus_iff in Hd. rewrite Qcplus_0_l in Hd.
  unfold loss. now rewrite gain_of_positive.
Qed.

(** X12. On a strictly decreasing column of finite prices the relative
    strength index is 0 at every position from [n] on (the smoothed gains
    are zero and the smoothed losses positive). *)
Theorem rsi_of_falling_prices
    (df : DataFrame) (n : Z) (prices : string) (qs : list Qc) :
  df_columns df !! LStr prices = Some (Fin <$> qs) ->
  1 <= n ->
  strictly_decreasing qs ->
  exists rsi : Series,
    relative_strength_index df n prices = Ok rsi /\
    forall i : nat, n <= Z.of_nat i -> (i < length qs)%nat ->
      s_values rsi !! i = Some (of_Z 0).
Proof.
  intros Hcol Hn Hdec.
  destruct (rsi_stages df n prices _ Hcol Hn) as (_ & _ & _ & Hrsi).
  eexists. split; [exact Hrsi|]. intros i Hi Hlen.
  pose proof (decreasing_differences qs Hdec) as Hds.
  destruct (rsi_fin_position (fun w => w = 0%Qc) (fun w => (0 < w)%Qc)
              df n prices qs i) as (rsi & u & v & Hrun & -> & Hv & Hval);
    try assumption; try exact average_zero; try exact average_positive.
  - apply Forall_fmap. eapply Forall_impl; [exact Hds|]. intros d Hd.
    apply gain_of_nonpositive. now apply Qclt_le_weak.
  - apply Forall_fmap. eapply Forall_impl; [exact Hds|]. intros d Hd.
    now apply loss_of_negative.
  - rewrite Hrsi in Hrun. injection Hrun as <-.
    rewrite Hval. now rewrite rsi_of_zero_rs.
Qed.

Lemma rsi_of_falling_prices_witness :
  exists rsi : Series,
    relative_strength_index ten_to_one 3 "Close" = Ok rsi /\
    s_values rsi !! 5%nat = Some (of_Z 0).
Proof.
  destruct (rsi_of_falling_prices ten_to_one 3 "Close"%string
              (Qc_of_Z <$> [10; 9; 8; 7; 6; 5; 4; 3; 2; 1]))
    as (rsi & Hrun & Hval).
  - vm_compute. reflexivity.
  - lia.
  - intros i a b Ha Hb.
    do 9 (destruct i as [|i];
          [injection Ha as <-; injection Hb as <-; reflexivity|]).
    destruct i; discriminate Hb.
  - exists rsi. split; [exact Hrun|]. apply Hval; [lia|vm_compute; lia].
Defined.

Lemma differences_replicate (k : nat) (v : Qc) :
  Forall (fun d => d = 0%Qc) (differences (replicate k v)).
Proof.
  destruct k as [|k]; [constructor|]. apply Forall_lookup. intros i d Hd.
  unfold differences in Hd. cbn [replicate] in Hd.
  apply lookup_zip_with_Some in Hd as (x & y & -> & Hx & Hy).
  apply lookup_replicate in Hx as [-> _].
  change (v :: replicate k v) with (replicate (S k) v) in Hy.
  apply lookup_replicate in Hy as [-> _]. ring.
Qed.

(** X13. On a constant column of finite prices the relative strength index
    is undefined at every position: before [n] for lack of history, from
    [n] on because both smoothed gains and smoothed losses are zero. *)
Theorem rsi_of_flat_prices
    (df : DataFrame) (n : Z) (prices : string) (k : nat) (v : Qc) :
  df_columns df !! LStr prices = Some (Fin <$> replicate k v) ->
  1 <= n ->
  exists rsi : Series,
    relative_strength_index df n prices = Ok rsi /\
    s_values rsi = replicate k NaN.
Proof.
  intros Hcol Hn.
  destruct (rsi_stages df n prices _ Hcol Hn) as (_ & _ & _ & Hrsi).
  match type of Hrsi with _ = Ok ?o => set (out := o) in * end.
  exists out. split; [exact Hrsi|].
  assert (Hlen : length (s_values out) = k).
  { unfold out. simpl.
    rewrite length_fmap, length_zip_with, !ewm_values_length, !length_fmap,
      diff_values_length, length_fmap, !length_replicate. lia. }
  apply list_eq. intros i.
  destruct (decide (i < k)%nat) as [Hi|Hi].
  - rewrite lookup_replicate_2 by assumption.
    destruct (decide (Z.of_nat i < n)) as [Hlt|Hge].
    + apply (rsi_early df n prices _ _ Hcol Hrsi);
        [now rewrite length_fmap, length_replicate|assumption].
    + pose proof (differences_replicate k v) as Hds.
      destruct (rsi_fin_position (fun w => w = 0%Qc) (fun w => w = 0%Qc)
                  df n prices (replicate k v) i)
        as (rsi & u & z & Hrun & -> & -> & Hval);
        try assumption; try exact average_zero; try lia.
      * apply Forall_fmap. eapply Forall_impl; [exact Hds|].
        intros d ->. reflexivity.
      * apply Forall_fmap. eapply Forall_impl; [exact Hds|].
        intros d ->. reflexivity.
      * now rewrite length_replicate.
      * rewrite Hrsi in Hrun. injection Hrun as <-. rewrite Hval.
        reflexivity.
  - rewrite !lookup_ge_None_2; [reflexivity| |];
      rewrite ?length_replicate; lia.
Qed.

Lemma rsi_of_flat_prices_witness :
  exists rsi : Series,
    relative_strength_index flat_five 2 "Close" = Ok rsi /\
    s_values rsi = replicate 5 NaN.
Proof.
  apply (rsi_of_flat_prices flat_five 2 "Close" 5 (Qc_of_Z 5)).
  - vm_compute. reflexivity.
  - lia.
Defined.

(** ** %K at the ends of its range *)

Lemma stochastic_k_frame_explicit df n_k prices xs :
  df_columns df !! LStr prices = Some xs -> 0 <= n_k ->
  let hh := rolling_values n_k n_k agg_max xs in
  let ll := rolling_values n_k n_k agg_min xs in
  highest_high df n_k prices =
    Ok (mkSeries (Some (LStr prices)) (df_index df) hh) /\
  lowest_low df n_k prices =
    Ok (mkSeries (Some (LStr prices)) (df_index df) ll) /\
  stochastic_k_frame df n_k prices =
    Ok (mkDataFrame (df_index df)
          {[ LStr prices :=
               (fun q => Num.mul q (of_Z 100)) <$>
               zip_with Num.div (zip_with Num.sub xs ll)
                                (zip_with Num.sub hh ll) ]}).
Proof.
  intros Hcol Hn hh ll. unfold stochastic_k_frame, highest_high, lowest_low.
  rewrite (getitem_ok _ _ _ Hcol). simpl. rewrite rolling_ok by assumption.
  simpl. do 2 (split; [reflexivity|]).
  unfold frame_of_series. simpl. unfold join_name.
  repeat (rewrite decide_True by reflexivity; simpl). reflexivity.
Qed.

Lemma stochastic_k_frame_inputs df n_k prices K :
  stochastic_k_frame df n_k prices = Ok K ->
  is_Some (df_columns df !! LStr prices) /\ 0 <= n_k.
Proof.
  intros HK. unfold stochastic_k_frame, highest_high in HK.
  apply bind_ok in HK as (hh & Hhh & _).
  apply bind_ok in Hhh as (s & Hs & Hhh).
  apply bind_ok in Hhh as (r & Hr & _). split.
  - apply getitem_returns. eauto.
  - apply (rolling_returns s). eauto.
Qed.

Lemma percent_of_flat_range (l : Qc) :
  Num.mul (Num.div (Num.sub (Fin l) (Fin l)) (Num.sub (Fin l) (Fin l)))
          (of_Z 100) = NaN.
Proof. cbn [Num.sub Num.neg Num.add]. now rewrite Qcplus_opp_r. Qed.

Lemma percent_at_high (l h : Qc) :
  (l < h)%Qc ->
  Num.mul (Num.div (Num.sub (Fin h) (Fin l)) (Num.sub (Fin h) (Fin l)))
          (of_Z 100) = of_Z 100.
Proof.
  intros Hlt. apply Qclt_minus_iff in Hlt. apply Qc_pos_nonzero in Hlt.
  cbn [Num.sub Num.neg Num.add]. rewrite div_fin by assumption.
  unfold of_Z. cbn [Num.mul]. apply (f_equal Fin). field. exact Hlt.
Qed.

Lemma percent_at_low (l h : Qc) :
  (l < h)%Qc ->
  Num.mul (Num.div (Num.sub (Fin l) (Fin l)) (Num.sub (Fin h) (Fin l)))
          (of_Z 100) = of_Z 0.
Proof.
  intros Hlt. apply Qclt_minus_iff in Hlt. apply Qc_pos_nonzero in Hlt.
  cbn [Num.sub Num.neg Num.add]. rewrite div_fin by assumption.
  unfold of_Z. cbn [Num.mul]. rewrite Z2Qc_inj_0.
  apply (f_equal Fin). field. exact Hlt.
Qed.

(** X14. Wherever the rolling maximum and minimum of the column are both
    defined, the price of the position is finite; %K is undefined there
    when the two coincide (a flat window), 100 when the price is the
    maximum of a non-flat window and 0 when it is the minimum. *)
Theorem stochastic_k_at_extremes
    (df : DataFrame) (n_k n_d : Z) (prices d_type : string)
    (K : DataFrame) (D : Series) :
  stochastic_oscillator df n_k n_d prices d_type = Ok (K, D) ->
  exists (xs : list num) (hh ll : Series) (kv : list num),
    df_columns df !! LStr prices = Some xs /\
    highest_high df n_k prices = Ok hh /\
    lowest_low df n_k prices = Ok ll /\
    df_columns K !! LStr prices = Some kv /\
    forall (i : nat) (h l : Qc),
      s_values hh !! i = Some (Fin h) ->
      s_values ll !! i = Some (Fin l) ->
      exists q : Qc,
        xs !! i = Some (Fin q) /\
        (h = l -> kv !! i = Some NaN) /\
        ((l < h)%Qc -> q = h -> kv !! i = Some (of_Z 100)) /\
        ((l < h)%Qc -> q = l -> kv !! i = Some (of_Z 0)).
Proof.
  intros H. rewrite stochastic_oscillator_stages in H.
  apply bind_ok in H as (K' & HK & H). apply bind_ok in H as (D' & _ & H).
  injection H as <- <-.
  destruct (stochastic_k_frame_inputs _ _ _ _ HK) as [[xs Hcol] Hn].
  destruct (stochastic_k_frame_explicit _ _ _ _ Hcol Hn) as (Hhh & Hll & HK').
  rewrite HK in HK'. injection HK' as ->.
  do 4 eexists. split; [exact Hcol|]. split; [exact Hhh|].
  split; [exact Hll|]. split; [apply lookup_singleton_eq|].
  simpl. intros i h l Hh Hl.
  destruct (rolling_extrema_bracket _ _ _ _ _ Hh Hl) as (q & Hq & Hlq & Hqh).
  exists q. split; [exact Hq|].
  assert (Hval : forall a b c : num,
    xs !! i = Some a -> b = Num.sub a (Fin l) -> c = Num.sub (Fin h) (Fin l) ->
    ((fun q => Num.mul q (of_Z 100)) <$>
       zip_with Num.div
         (zip_with Num.sub xs (rolling_values n_k n_k agg_min xs))
         (zip_with Num.sub (rolling_values n_k n_k agg_max xs)
            (rolling_values n_k n_k agg_min xs))) !! i
    = Some (Num.mul (Num.div b c) (of_Z 100))).
  { intros a b c Ha -> ->. rewrite list_lookup_fmap.
    rewrite (zip_with_lookup_both Num.div _ _ i
               (Num.sub a (Fin l)) (Num.sub (Fin h) (Fin l)));
      [reflexivity| |]; now apply zip_with_lookup_both. }
  split; [|split].
  - intros ->.
    assert (q = l) as -> by now apply Qcle_antisym.
    rewrite (Hval _ _ _ Hq eq_refl eq_refl). f_equal.
    apply percent_of_flat_range.
  - intros Hlt ->. rewrite (Hval _ _ _ Hq eq_refl eq_refl). f_equal.
    now apply percent_at_high.
  - intros Hlt ->. rewrite (Hval _ _ _ Hq eq_refl eq_refl). f_equal.
    now apply percent_at_low.
Qed.

Lemma stochastic_k_at_extremes_witness :
  exists (K : DataFrame) (D : Series) (kv : list num),
    stochastic_oscillator zigzag 2 2 "Close" "sma" = Ok (K, D) /\
    df_columns K !! LStr "Close" = Some kv /\
    kv !! 2%nat = Some (of_Z 100) /\ kv !! 3%nat = Some (of_Z 0).
Proof.
  destruct (stochastic_oscillator zigzag 2 2 "Close" "sma")
    as [[K D]|e] eqn:Hrun.
  - destruct (stochastic_k_at_extremes zigzag 2 2 "Close" "sma" K D Hrun)
      as (xs & hh & ll & kv & Hxs & Hhh & Hll & Hkv & Hv).
    vm_compute in Hxs. injection Hxs as <-.
    vm_compute in Hhh. injection Hhh as <-.
    vm_compute in Hll. injection Hll as <-.
    exists K, D, kv. split; [reflexivity|]. split; [exact Hkv|]. split.
    + destruct (Hv 2%nat _ _ eq_refl eq_refl) as (q & Hq & _ & Hhigh & _).
      injection Hq as <-. apply Hhigh; reflexivity.
    + destruct (Hv 3%nat _ _ eq_refl eq_refl) as (q & Hq & _ & _ & Hlow).
      injection Hq as <-. apply Hlow; reflexivity.
  - vm_compute in Hrun. discriminate Hrun.
Defined.

(** ** Bands over a window of one observation *)

Lemma add_nan_r (x : num) : Num.add x NaN = NaN.
Proof. now destruct x. Qed.

Lemma sub_nan_r (x : num) : Num.sub x NaN = NaN.
Proof. now destruct x. Qed.

Lemma mul_nan_r (x : num) : Num.mul x NaN = NaN.
Proof. now destruct x. Qed.

Lemma rolling_std_single (sqrt : Qc -> Qc) (xs : list num) :
  Forall (fun x => x = NaN) (rolling_values 1 1 (agg_std sqrt) xs).
Proof.
  apply Forall_lookup. intros i x Hx.
  assert (Hi : (i < length xs)%nat).
  { apply lookup_lt_Some in Hx. now rewrite rolling_values_length in Hx. }
  rewrite rolling_values_lookup in Hx by assumption. cbv zeta in Hx.
  injection Hx as <-.
  destruct (bool_decide _); [|reflexivity].
  unfold agg_std. rewrite bool_decide_eq_true_2; [reflexivity|].
  pose proof (observations_length_le (window_at 1 (prep_values xs) i)).
  pose proof (window_length_le 1 (prep_values xs) i). lia.
Qed.

(** X15. With a window of a single observation the sample standard
    deviation is undefined everywhere, and so are both Bollinger bands,
    whatever the prices and the multiplier. *)
Theorem bollinger_bands_single_observation
    (sqrt : Qc -> Qc) (df : DataFrame) (m : num) (h l c : list num) :
  df_columns df !! LStr "High" = Some h ->
  df_columns df !! LStr "Low" = Some l ->
  df_columns df !! LStr "Close" = Some c ->
  exists lower upper : Series,
    bollinger_bands sqrt df 1 m = Ok (lower, upper) /\
    Forall (fun x => x = NaN) (s_values lower) /\
    Forall (fun x => x = NaN) (s_values upper).
Proof.
  intros Hh Hl Hc. unfold bollinger_bands.
  rewrite (getitem_ok _ _ _ Hh), (getitem_ok _ _ _ Hl), (getitem_ok _ _ _ Hc).
  simpl. do 2 eexists. split; [reflexivity|]. simpl.
  split; apply Forall_lookup; intros i x Hx;
    apply lookup_zip_with_Some in Hx as (a & b & -> & _ & Hb);
    rewrite list_lookup_fmap in Hb;
    destruct (rolling_values 1 1 (agg_std sqrt) _ !! i) as [sv|] eqn:Hsv;
    try discriminate; injection Hb as <-;
    match type of Hsv with rolling_values _ _ _ ?tp !! _ = _ =>
      pose proof (rolling_std_single sqrt tp) as Hall
    end;
    rewrite Forall_lookup in Hall; rewrite (Hall _ _ Hsv), mul_nan_r.
  - apply sub_nan_r.
  - apply add_nan_r.
Qed.

Lemma bollinger_bands_single_observation_witness :
  exists lower upper : Series,
    bollinger_bands root_of_square high_low_close 1 (of_Z 2)
      = Ok (lower, upper) /\
    Forall (fun x => x = NaN) (s_values lower) /\
    Forall (fun x => x = NaN) (s_values upper).
Proof.
  apply (bollinger_bands_single_observation root_of_square high_low_close
           (of_Z 2) (prices_of [2; 3; 4]) (prices_of [0; 1; 2])
           (prices_of [1; 2; 3]));
    vm_compute; reflexivity.
Defined.

(** ** Warm-up of MACD *)

Lemma warm_fin (qs : list Qc) : warm 0 (Fin <$> qs).
Proof.
  intros i Hi. rewrite length_fmap in Hi. split; [lia|]. intros _.
  destruct (lookup_lt_is_Some_2 qs i Hi) as [q Hq].
  exists q. now rewrite list_lookup_fmap, Hq.
Qed.

(** A warm series is a run of missing entries followed by finite ones. *)
Lemma warm_split (k : nat) (l : list num) :
  warm k l ->
  exists us : list Qc,
    l = replicate (k `min` length l) NaN ++ (Fin <$> us) /\
    length us = (length l - k)%nat.
Proof.
  revert k. induction l as [|x l IH]; intros k Hw.
  - exists []. now rewrite Nat.min_0_r.
  - destruct k as [|k].
    + destruct (IH 0%nat) as (us & Hl & Hlen).
      { intros i Hi. split; [lia|]. intros _.
        destruct (Hw (S i)) as [_ Hf]; [simpl; lia|]. apply Hf. lia. }
      destruct (Hw 0%nat) as [_ Hf]; [simpl; lia|].
      destruct Hf as [w Hw0]; [lia|]. injection Hw0 as ->.
      exists (w :: us). simpl in *. split; [now f_equal|lia].
    + destruct (IH k) as (us & Hl & Hlen).
      { intros i Hi. destruct (Hw (S i)) as [Hn Hf]; [simpl; lia|].
        split; intros Hik; [apply Hn|apply Hf]; lia. }
      destruct (Hw 0%nat) as [Hn _]; [simpl; lia|].
      injection (Hn ltac:(lia)) as ->.
      exists us. simpl. split; [now f_equal|exact Hlen].
Qed.

Lemma ewm_loop_gap (f : Qc) (minp : Z) (st : ewm_state) (g : nat)
    (b : list num) :
  weighted st = None ->
  ewm_loop f minp st (replicate g NaN ++ b) =
  replicate g (ewm_out minp st) ++ ewm_loop f minp st b.
Proof.
  intros Hw. induction g as [|g IH]; [reflexivity|].
  cbn [replicate app ewm_loop observation].
  assert (Hst : ewm_step f st None = st) by (unfold ewm_step; now rewrite Hw).
  rewrite Hst. now f_equal.
Qed.

Lemma prep_values_warm (g : nat) (us : list Qc) :
  prep_values (replicate g NaN ++ (Fin <$> us)) =
  replicate g NaN ++ (Fin <$> us).
Proof.
  unfold prep_values. rewrite fmap_app, fmap_replicate. f_equal.
  apply prep_values_fin.
Qed.

Lemma lookup_cons_S (x : num) (l : list num) (j : nat) :
  (x :: l) !! S j = l !! j.
Proof. reflexivity. Qed.

(** The recurrence on a run of [g] missing entries followed by finite
    ones: defined once [n] finite entries have been seen. *)
Lemma ewm_values_run (com : Qc) (n : Z) (g : nat) (us : list Qc) :
  (0 <= com)%Qc -> 1 <= n ->
  warm (g + Z.to_nat n - 1)
       (ewm_values com n (replicate g NaN ++ (Fin <$> us))).
Proof.
  intros Hcom Hn i Hi.
  rewrite ewm_values_length, length_app, length_replicate, length_fmap in Hi.
  pose proof (decay_nonneg com Hcom) as Hf.
  assert (Hall : Forall (fun _ : Qc => True) us)
    by (apply Forall_forall; auto).
  destruct g as [|g].
  - cbn [replicate app].
    destruct (ewm_values_fin_inv (fun _ => True) com n us i
                (fun _ _ _ _ _ _ => I) Hall Hcom ltac:(simpl in Hi; lia))
      as (w & _ & Hv).
    rewrite Hv. split; intros Hik.
    + now rewrite bool_decide_eq_false_2 by lia.
    + rewrite bool_decide_eq_true_2 by lia. eauto.
  - unfold ewm_values. rewrite prep_values_warm. cbn [replicate app].
    set (f := (1 - 1 / (1 + com))%Qc) in *.
    destruct i as [|j].
    + split; [intros _|lia]. unfold ewm_out, ewm_init. simpl.
      now rewrite bool_decide_eq_false_2 by lia.
    + rewrite lookup_cons_S, ewm_loop_gap by reflexivity.
      destruct (decide (j < g)%nat) as [Hjg|Hjg].
      * rewrite lookup_app_l by (rewrite length_replicate; lia).
        rewrite lookup_replicate_2 by assumption.
        split; [intros _|lia]. unfold ewm_out, ewm_init. simpl.
        now rewrite bool_decide_eq_false_2 by lia.
      * rewrite lookup_app_r by (rewrite length_replicate; lia).
        rewrite length_replicate.
        destruct (ewm_loop_inv (fun _ => True) (fun _ _ _ _ _ _ => I) f Hf
                    (Z.max n 1) us Hall (ewm_init NaN) (j - g))
          as (w & _ & Hj).
        -- split; simpl; [discriminate|exact I].
        -- lia.
        -- rewrite Hj. simpl nobs. split; intros Hik.
           ++ now rewrite bool_decide_eq_false_2 by lia.
           ++ rewrite bool_decide_eq_true_2 by lia. eauto.
Qed.

(** The exponentially weighted mean of a warm series is warm, [n - 1]
    positions later. *)
Lemma ewm_values_warm (com : Qc) (n : Z) (k : nat) (l : list num) :
  (0 <= com)%Qc -> 1 <= n -> warm k l ->
  warm (k + Z.to_nat n - 1) (ewm_values com n l).
Proof.
  intros Hcom Hn Hw. destruct (warm_split k l Hw) as (us & Hl & Hlen).
  pose proof (ewm_values_run com n (k `min` length l) us Hcom Hn) as Hrun.
  rewrite <- Hl in Hrun. intros i Hi.
  destruct (Hrun i Hi) as [Hnan Hfin].
  rewrite ewm_values_length in Hi. split; intros Hik.
  - destruct (decide (i < k `min` length l + Z.to_nat n - 1)%nat);
      [now apply Hnan|lia].
  - apply Hfin. lia.
Qed.

Lemma warm_zip_sub (k1 k2 : nat) (a b : list num) :
  length a = length b -> warm k1 a -> warm k2 b ->
  warm (k1 `max` k2) (zip_with Num.sub a b).
Proof.
  intros Hlen Ha Hb i Hi. rewrite length_zip_with in Hi.
  destruct (Ha i ltac:(lia)) as [Han Haf].
  destruct (Hb i ltac:(lia)) as [Hbn Hbf].
  destruct (lookup_lt_is_Some_2 a i ltac:(lia)) as [x Hx].
  destruct (lookup_lt_is_Some_2 b i ltac:(lia)) as [y Hy].
  rewrite (zip_with_lookup_both Num.sub _ _ _ _ _ Hx Hy).
  split; intros Hik.
  - destruct (decide (i < k1)%nat) as [H1|H1].
    + rewrite (Han H1) in Hx. injection Hx as <-. reflexivity.
    + rewrite (Hbn ltac:(lia)) in Hy. injection Hy as <-.
      now rewrite sub_nan_r.
  - destruct (Haf ltac:(lia)) as [u Hu]. destruct (Hbf ltac:(lia)) as [v Hv].
    rewrite Hu in Hx. rewrite Hv in Hy.
    injection Hx as <-. injection Hy as <-. simpl. eauto.
Qed.

(** X17. On a column of finite closing prices and for spans of at least 1,
    the MACD line is undefined before position [max n_fast n_slow - 1] and
    finite from there on; the signal line and the difference are undefined
    for [n_signal - 1] positions more and finite afterwards. *)
Theorem macd_warm_up
    (df : DataFrame) (n_fast n_slow n_signal : Z) (qs : list Qc) :
  df_columns df !! LStr "Close" = Some (Fin <$> qs) ->
  1 <= n_fast -> 1 <= n_slow -> 1 <= n_signal ->
  exists macd sig dif : Series,
    moving_average_convergence_divergence df n_fast n_slow n_signal
      = Ok (macd, sig, dif) /\
    warm (Z.to_nat (Z.max n_fast n_slow - 1)) (s_values macd) /\
    warm (Z.to_nat (Z.max n_fast n_slow + n_signal - 2)) (s_values sig) /\
    warm (Z.to_nat (Z.max n_fast n_slow + n_signal - 2)) (s_values dif).
Proof.
  intros Hcol Hf Hs Hg. unfold moving_average_convergence_divergence.
  rewrite (ema_ok _ _ _ _ Hcol Hf), (ema_ok _ _ _ _ Hcol Hs). simpl.
  rewrite ewm_span_ok by assumption. simpl.
  do 3 eexists. split; [reflexivity|]. simpl.
  pose proof (ewm_values_warm _ n_fast 0 _ (span_com_nonneg _ Hf) Hf
                (warm_fin qs)) as Hfast.
  pose proof (ewm_values_warm _ n_slow 0 _ (span_com_nonneg _ Hs) Hs
                (warm_fin qs)) as Hslow.
  set (fast := ewm_values _ n_fast _) in *.
  set (slow := ewm_values _ n_slow _) in *.
  assert (Hlen : length fast = length slow)
    by (unfold fast, slow; now rewrite !ewm_values_length).
  pose proof (warm_zip_sub _ _ _ _ Hlen Hfast Hslow) as Hmacd.
  set (macd := zip_with Num.sub fast slow) in *.
  pose proof (ewm_values_warm _ n_signal _ _ (span_com_nonneg _ Hg) Hg Hmacd)
    as Hsig.
  set (sig := ewm_values _ n_signal macd) in *.
  assert (Hlen' : length macd = length sig)
    by (unfold sig; now rewrite ewm_values_length).
  pose proof (warm_zip_sub _ _ _ _ Hlen' Hmacd Hsig) as Hdif.
  replace (Z.to_nat (Z.max n_fast n_slow - 1))
    with ((0 + Z.to_nat n_fast - 1) `max` (0 + Z.to_nat n_slow - 1))%nat
    by lia.
  split; [exact Hmacd|].
  replace (Z.to_nat (Z.max n_fast n_slow + n_signal - 2))
    with ((0 + Z.to_nat n_fast - 1) `max` (0 + Z.to_nat n_slow - 1)
          + Z.to_nat n_signal - 1)%nat by lia.
  split; [exact Hsig|].
  replace ((0 + Z.to_nat n_fast - 1) `max` (0 + Z.to_nat n_slow - 1)
           + Z.to_nat n_signal - 1)%nat
    with (((0 + Z.to_nat n_fast - 1) `max` (0 + Z.to_nat n_slow - 1))
          `max` ((0 + Z.to_nat n_fast - 1) `max` (0 + Z.to_nat n_slow - 1)
                 + Z.to_nat n_signal - 1))%nat by lia.
  exact Hdif.
Qed.

Lemma macd_warm_up_witness :
  exists macd sig dif : Series,
    moving_average_convergence_divergence one_to_ten 2 3 2
      = Ok (macd, sig, dif) /\
    s_values sig !! 2%nat = Some NaN /\
    exists w : Qc, s_values sig !! 3%nat = Some (Fin w).
Proof.
  destruct (macd_warm_up one_to_ten 2 3 2 (Qc_of_Z <$> seqZ 1 10))
    as (macd & sig & dif & Hrun & _ & Hsig & _).
  - vm_compute. reflexivity.
  - lia.
  - lia.
  - lia.
  - exists macd, sig, dif. split; [exact Hrun|].
    assert (Hlen : length (s_values sig) = 10%nat).
    { vm_compute in Hrun. injection Hrun as _ <- _. reflexivity. }
    split.
    + apply (Hsig 2%nat); [rewrite Hlen; lia|vm_compute; lia].
    + apply (Hsig 3%nat); [rewrite Hlen; lia|vm_compute; lia].
Defined.

(** ** Bands of flat prices *)






